(** * recept: the directory stack ([recept.apps.shell]) and the command
    factory ([recept.apps.app])

    A shallow embedding of [cwd], [cd], [with_lock], [pushd] and [app],
    together with the part of the operating system and of the [sh] and
    [threading] libraries that these functions drive. *)

From Stdlib Require Import ZArith.
From stdpp Require Import gmap strings list fin_maps.

Local Open Scope string_scope.
Local Open Scope nat_scope.
Local Open Scope list_scope.

(** ** Paths

    A path is kept as the list of its [/]-separated segments: [.] is
    [Cur], [..] is [Up], an ordinary name is [Name].  An empty segment (a
    separator doubled, or one at the end) is left out: the kernel and
    [posixpath.normpath] both pass over it.  ["/"] is the absolute path
    without segments, and the empty string is the relative path without
    segments.  The file tree has no symbolic links. *)

Inductive segment :=
| Cur
| Up
| Name (s : string).

Record Path := mkPath { absolute : bool; segments : list segment }.

#[global] Instance segment_eq_dec : EqDecision segment.
Proof. solve_decision. Defined.

#[global] Instance Path_eq_dec : EqDecision Path.
Proof. solve_decision. Defined.

Definition rel (l : list segment) : Path := mkPath false l.
Definition abs (l : list segment) : Path := mkPath true l.

(** A location in the file tree: the names from the root down. *)
Definition of_location (d : list string) : Path := abs (Name <$> d).

Definition parent (d : list string) : list string := removelast d.

Definition is_up (s : segment) : bool :=
  match s with Up => true | _ => false end.

Definition ends_with_up (l : list segment) : bool :=
  match last l with Some s => is_up s | None => false end.

Definition is_nil {A} (l : list A) : bool :=
  match l with [] => true | _ => false end.

(** [posixpath.join] of two paths. *)
Definition os_path_join (a b : Path) : Path :=
  if absolute b then b else mkPath (absolute a) (segments a ++ segments b).

(** One turn of the loop of [posixpath.normpath]. *)
Definition normpath_step (initial_slashes : bool)
    (new_comps : list segment) (comp : segment) : list segment :=
  match comp with
  | Cur => new_comps
  | Name _ => new_comps ++ [comp]
  | Up =>
      if (negb initial_slashes && is_nil new_comps) || ends_with_up new_comps
      then new_comps ++ [comp]
      else removelast new_comps
  end.

Definition os_path_normpath (p : Path) : Path :=
  let comps := fold_left (normpath_step (absolute p)) (segments p) [] in
  if negb (absolute p) && is_nil comps then rel [Cur]
  else mkPath (absolute p) comps.

(** ** The file tree *)

Inductive node := File | Dir.

#[global] Instance node_eq_dec : EqDecision node.
Proof. solve_decision. Defined.

Inductive errno := ENOENT | ENOTDIR | EEXIST.

#[global] Instance errno_eq_dec : EqDecision errno.
Proof. solve_decision. Defined.

(** Path resolution as the kernel does it, from the location [cur]: every
    name on the way has to be a directory. *)
Fixpoint walk (t : gmap (list string) node) (cur : list string)
    (segs : list segment) : errno + list string :=
  match segs with
  | [] => inr cur
  | Cur :: rest => walk t cur rest
  | Up :: rest => walk t (parent cur) rest
  | Name n :: rest =>
      match t !! (cur ++ [n]) with
      | Some Dir => walk t (cur ++ [n]) rest
      | Some File => inl ENOTDIR
      | None => inl ENOENT
      end
  end.

(** A location is a directory when the walk from the root along its names
    arrives. *)
Definition is_dir (t : gmap (list string) node) (d : list string) : bool :=
  match walk t [] (Name <$> d) with
  | inr _ => true
  | inl _ => false
  end.

(** The same walk, creating each missing directory: [os.makedirs] with
    [exist_ok=True].  A directory is made in a directory that is there;
    what has been made stays when a later step fails, so the tree comes
    back in either case. *)
Fixpoint walk_create (t : gmap (list string) node) (cur : list string)
    (segs : list segment) : gmap (list string) node * (errno + list string) :=
  match segs with
  | [] => (t, inr cur)
  | Cur :: rest => walk_create t cur rest
  | Up :: rest => walk_create t (parent cur) rest
  | Name n :: rest =>
      match t !! (cur ++ [n]) with
      | Some Dir => walk_create t (cur ++ [n]) rest
      | Some File => (t, inl (if is_nil rest then EEXIST else ENOTDIR))
      | None =>
          if is_dir t cur
          then walk_create (<[cur ++ [n] := Dir]> t) (cur ++ [n]) rest
          else (t, inl ENOENT)
      end
  end.

(** Where a path lookup starts: at the root, or at the current directory.
    The current directory may have been removed in the meantime; [.] and
    [..] are still resolved from it then, while a name is not found in it
    (nothing is below a location that is not a directory).  The empty path
    names nothing. *)
Definition start_of (wd : list string) (p : Path) : errno + list string :=
  if absolute p then inr []
  else if is_nil (segments p) then inl ENOENT
  else inr wd.

Definition resolve (t : gmap (list string) node) (wd : list string)
    (p : Path) : errno + list string :=
  match start_of wd p with
  | inl e => inl e
  | inr cur => walk t cur (segments p)
  end.

(** ** Exceptions, threads, the world *)

Inductive exn_kind :=
| OSError (e : errno)
| CommandNotFound (name : string)
| ErrorReturnCode (exit_code : Z) (stdout stderr : string)
| RuntimeError (msg : string)
| TypeError (msg : string)
| SystemExit (code : Z)
| Failure (tag : string).

(** An exception with its [__context__]. *)
#[warnings="-register-all"]
Inductive exn := Exn (kind : exn_kind) (context : option exn).

Definition exn_kind_of (e : exn) : exn_kind := let 'Exn k _ := e in k.
Definition exn_context (e : exn) : option exn := let 'Exn _ c := e in c.

(** [SystemExit] is not an [Exception]: [except Exception] lets it through
    and, uncaught, it ends the process with its code. *)
Definition is_Exception (e : exn) : bool :=
  match exn_kind_of e with
  | SystemExit _ => false
  | _ => true
  end.

(** An exception raised while [handled] is being handled gets it as
    context. *)
Definition raised_during (handled : exn) (e : exn) : exn :=
  match exn_context e with
  | None => Exn (exn_kind_of e) (Some handled)
  | Some _ => e
  end.

Definition thread := nat.

(** [threading.RLock]: the owning thread and the recursion level. *)
Record RLock := mkRLock { owner : option thread; count : nat }.

Definition unlocked : RLock := mkRLock None 0.

Inductive stream := SysStdout | SysStderr.

Record LogRecord := mkLog { log_fmt : string; log_arg : Path }.

Record World := mkWorld {
  fs : gmap (list string) node;
  wd : list string;
  PUSHD_LOCK_state : RLock;
  debug_log : list LogRecord;
  console : list (stream * string)
}.

Definition set_fs (t : gmap (list string) node) (w : World) : World :=
  mkWorld t (wd w) (PUSHD_LOCK_state w) (debug_log w) (console w).
Definition set_wd (d : list string) (w : World) : World :=
  mkWorld (fs w) d (PUSHD_LOCK_state w) (debug_log w) (console w).
Definition set_lock (l : RLock) (w : World) : World :=
  mkWorld (fs w) (wd w) l (debug_log w) (console w).
Definition add_log (r : LogRecord) (w : World) : World :=
  mkWorld (fs w) (wd w) (PUSHD_LOCK_state w) (debug_log w ++ [r]) (console w).
Definition add_console (s : stream) (text : string) (w : World) : World :=
  mkWorld (fs w) (wd w) (PUSHD_LOCK_state w) (debug_log w)
    (console w ++ [(s, text)]).

(** ** Computations

    A computation runs as a thread, on a world, and returns, raises, or
    blocks (on a lock another thread holds). *)

Inductive outcome (A : Type) :=
| Ok (a : A)
| Raise (e : exn)
| Blocks.
Arguments Ok {A} a.
Arguments Raise {A} e.
Arguments Blocks {A}.

Definition M (A : Type) : Type := thread → World → outcome A * World.

#[global] Instance M_ret : MRet M := λ A a _ w, (Ok a, w).

#[global] Instance M_bind : MBind M := λ A B k m me w,
  match m me w with
  | (Ok a, w') => k a me w'
  | (Raise e, w') => (Raise e, w')
  | (Blocks, w') => (Blocks, w')
  end.

Definition raise {A} (k : exn_kind) : M A := λ _ w, (Raise (Exn k None), w).

(** [try: body finally: fin].  [fin] runs however [body] ends, except when
    the thread is stuck inside [body]; an exception of [fin] replaces the
    one of [body] and keeps it as context. *)
Definition try_finally {A} (body : M A) (fin : M unit) : M A :=
  λ me w,
    match body me w with
    | (Ok a, w1) =>
        match fin me w1 with
        | (Ok _, w2) => (Ok a, w2)
        | (Raise e', w2) => (Raise e', w2)
        | (Blocks, w2) => (Blocks, w2)
        end
    | (Raise e, w1) =>
        match fin me w1 with
        | (Ok _, w2) => (Raise e, w2)
        | (Raise e', w2) => (Raise (raised_during e e'), w2)
        | (Blocks, w2) => (Blocks, w2)
        end
    | (Blocks, w1) => (Blocks, w1)
    end.

(** ** The [os] and [logging] calls of the module *)

(** [os.getcwd()].  The current directory is kept as a location; it is
    gone, and the call fails, when that location is no directory any
    more. *)
Definition os_getcwd : M Path :=
  λ _ w,
    if is_dir (fs w) (wd w) then (Ok (of_location (wd w)), w)
    else (Raise (Exn (OSError ENOENT) None), w).

Definition os_path_abspath (path : Path) : M Path :=
  if absolute path then mret (os_path_normpath path)
  else cwd ← os_getcwd; mret (os_path_normpath (os_path_join cwd path)).

Definition os_chdir (path : Path) : M unit :=
  λ _ w,
    match resolve (fs w) (wd w) path with
    | inr d => (Ok tt, set_wd d w)
    | inl e => (Raise (Exn (OSError e) None), w)
    end.

(** [os.makedirs(path, exist_ok=True)]. *)
Definition os_makedirs (path : Path) : M unit :=
  λ _ w,
    match start_of (wd w) path with
    | inl e => (Raise (Exn (OSError e) None), w)
    | inr cur =>
        match walk_create (fs w) cur (segments path) with
        | (t, inr _) => (Ok tt, set_fs t w)
        | (t, inl e) => (Raise (Exn (OSError e) None), set_fs t w)
        end
    end.

Definition logger_debug (fmt : string) (arg : Path) : M unit :=
  λ _ w, (Ok tt, add_log (mkLog fmt arg) w).

(** ** [threading.RLock] *)

(** A lock object lives in the world; a reference reads and writes it. *)
Record lock_ref := mkLockRef {
  lock_get : World → RLock;
  lock_set : RLock → World → World
}.

Definition RLock_acquire (lock : lock_ref) : M unit :=
  λ me w,
    let l := lock_get lock w in
    match owner l with
    | Some o =>
        if decide (o = me)
        then (Ok tt, lock_set lock (mkRLock (Some me) (count l + 1)) w)
        else (Blocks, w)
    | None => (Ok tt, lock_set lock (mkRLock (Some me) 1) w)
    end.

Definition RLock_release (lock : lock_ref) : M unit :=
  λ me w,
    let l := lock_get lock w in
    if decide (owner l = Some me) then
      match count l - 1 with
      | 0 => (Ok tt, lock_set lock unlocked w)
      | S n => (Ok tt, lock_set lock (mkRLock (Some me) (S n)) w)
      end
    else (Raise (Exn (RuntimeError "cannot release un-acquired lock") None), w).

(** [with lock: block]. *)
Definition with_RLock (lock : lock_ref) {A} (block : M A) : M A :=
  RLock_acquire lock;;
  try_finally block (RLock_release lock).

(** ** recept/apps/shell.py *)

(** What a [@contextmanager] function does to the block of the [with]
    statement it is entered by: the block runs where the generator
    yields. *)
Definition context_manager : Type := ∀ A : Type, M A → M A.

Definition with_lock (lock : lock_ref)
    (fn : Path → bool → context_manager) : Path → bool → context_manager :=
  λ path create A block,
    with_RLock lock (fn path create A block).

Definition cwd : M Path :=
  d ← os_getcwd;
  os_path_abspath d.

Definition cd (path : Path) (create : bool) : M unit :=
  (if create then os_makedirs path else mret tt);;
  logger_debug "cd -> %s" path;;
  os_chdir path.

Definition PUSHD_LOCK : lock_ref := mkLockRef PUSHD_LOCK_state set_lock.

(** The generator under the decorators. *)
Definition pushd_wrapped (path : Path) (create : bool) : context_manager :=
  λ A block,
    cwd ← os_getcwd;
    path ← os_path_abspath path;
    (if create then os_makedirs path else mret tt);;
    logger_debug "pushd -> %s" path;;
    os_chdir path;;
    try_finally block
      (logger_debug "pushd <- %s" path;;
       os_chdir cwd).

Definition pushd : Path → bool → context_manager :=
  with_lock PUSHD_LOCK pushd_wrapped.

Arguments pushd path create {A} block : rename.
Arguments pushd_wrapped path create {A} block : rename.

(** *** The two halves of a [pushd] scope

    [pushd(path, create)] is a context manager: [pushd_enter] is its
    [__enter__] (the lock, then the generator up to its [yield]; the lock
    is given back when the generator raises before yielding) and
    [pushd_exit] its [__exit__] (the [finally] clause of the generator,
    then the lock). *)

Record Frame := mkFrame { restore_point : Path; entered : Path }.

Definition on_failure {A} (m : M A) (cleanup : M unit) : M A :=
  λ me w,
    match m me w with
    | (Raise e, w1) =>
        match cleanup me w1 with
        | (Ok _, w2) => (Raise e, w2)
        | (Raise e', w2) => (Raise (raised_during e e'), w2)
        | (Blocks, w2) => (Blocks, w2)
        end
    | r => r
    end.

Definition pushd_enter (path : Path) (create : bool) : M Frame :=
  RLock_acquire PUSHD_LOCK;;
  on_failure
    (cwd ← os_getcwd;
     path ← os_path_abspath path;
     (if create then os_makedirs path else mret tt);;
     logger_debug "pushd -> %s" path;;
     os_chdir path;;
     mret (mkFrame cwd path))
    (RLock_release PUSHD_LOCK).

Definition pushd_restore (fr : Frame) : M unit :=
  logger_debug "pushd <- %s" (entered fr);;
  os_chdir (restore_point fr).

Definition pushd_exit (fr : Frame) : M unit :=
  try_finally (pushd_restore fr) (RLock_release PUSHD_LOCK).

(** *** Reading the lock and the tree *)

Definition lock_available (me : thread) (l : RLock) : bool :=
  match owner l with
  | Some o => bool_decide (o = me)
  | None => true
  end.

(** The lock after [me] has taken it, and after [me] has given it back. *)
Definition acquired (me : thread) (l : RLock) : RLock :=
  match owner l with
  | Some _ => mkRLock (Some me) (count l + 1)
  | None => mkRLock (Some me) 1
  end.

Definition released (me : thread) (l : RLock) : RLock :=
  match count l - 1 with
  | 0 => unlocked
  | S n => mkRLock (Some me) (S n)
  end.

(** A regular file sits at the location or above it. *)
Definition file_in_the_way (t : gmap (list string) node) (d : list string)
    : bool :=
  existsb (λ k, bool_decide (t !! take k d = Some File))
    (seq 0 (S (length d))).

(** Where a path leads from [cur], by the names alone. *)
Definition norm_location (cur : list string) (segs : list segment)
    : list string :=
  fold_left (λ cur s, match s with
                      | Cur => cur
                      | Up => parent cur
                      | Name n => cur ++ [n]
                      end) segs cur.

Definition abspath_location (d : list string) (p : Path) : list string :=
  norm_location (if absolute p then [] else d) (segments p).

(** [shutil.rmtree]: the directory and all below it go. *)
Definition shutil_rmtree (path : Path) : M unit :=
  λ _ w,
    match resolve (fs w) (wd w) path with
    | inr d =>
        (Ok tt,
         set_fs (filter (λ kv, ¬ d `prefix_of` kv.1) (fs w)) w)
    | inl e => (Raise (Exn (OSError e) None), w)
    end.

(** Two scopes, one inside the other, and the directory seen at each of the
    five points. *)
Definition nested_scopes (A B : Path) (createA createB : bool)
    : M (list Path) :=
  start ← cwd;
  inner ← pushd A createA
            (a ← cwd;
             ab ← pushd B createB cwd;
             a' ← cwd;
             mret [a; ab; a']);
  back ← cwd;
  mret (start :: inner ++ [back]).

(** *** Looking at a scope from the inside

    Blocks for the [with] statement that report what they find: the world
    as it is when the block runs, and what a call made by another thread
    at that moment comes to (the world being left as it is). *)
Definition current_world : M World := λ _ w, (Ok w, w).

Definition as_thread {A} (t : thread) (m : M A) : M (outcome A * World) :=
  λ _ w, (Ok (m t w), w).

(** Scopes inside scopes: [with pushd(p1): with pushd(p2): ... block]. *)
Fixpoint nest (paths : list Path) (create : bool) {A} (block : M A) : M A :=
  match paths with
  | [] => block
  | p :: rest => pushd p create (nest rest create block)
  end.

(** The directories such scopes lead to, each path being read in the
    directory before it. *)
Fixpoint route (d : list string) (paths : list Path) : list (list string) :=
  match paths with
  | [] => []
  | p :: rest =>
      let d' := abspath_location d p in
      d' :: route d' rest
  end.

(** *** Threads taking turns

    Each thread has the frames of the scopes it is in.  A thread enters a
    scope or leaves its innermost one; a turn that would block is not
    taken. *)

Record Process := mkProcess {
  world : World;
  scopes : gmap thread (list Frame)
}.

Definition scopes_of (s : Process) (t : thread) : list Frame :=
  default [] (scopes s !! t).

Inductive turn :=
| Enter (path : Path) (create : bool)
| Leave
| Cd (path : Path) (create : bool).

Definition take_turn (t : thread) (ev : turn) (s : Process) : option Process :=
  match ev with
  | Enter path create =>
      match pushd_enter path create t (world s) with
      | (Ok fr, w1) =>
          Some (mkProcess w1 (<[t := fr :: scopes_of s t]> (scopes s)))
      | (Raise _, w1) => Some (mkProcess w1 (scopes s))
      | (Blocks, _) => None
      end
  | Leave =>
      match scopes_of s t with
      | fr :: rest =>
          match pushd_exit fr t (world s) with
          | (Blocks, _) => None
          | (_, w1) => Some (mkProcess w1 (<[t := rest]> (scopes s)))
          end
      | [] => None
      end
  | Cd path create =>
      match cd path create t (world s) with
      | (Blocks, _) => None
      | (_, w1) => Some (mkProcess w1 (scopes s))
      end
  end.

Fixpoint run (schedule : list (thread * turn)) (s : Process)
    : option Process :=
  match schedule with
  | [] => Some s
  | (t, ev) :: rest =>
      match take_turn t ev s with
      | Some s' => run rest s'
      | None => None
      end
  end.

Definition start_process (w : World) : Process := mkProcess w ∅.

(** ** The part of [sh] that [app] uses

    Of the special keyword arguments of [sh] the ones that the module
    passes are followed: [_out], [_err], [_tee] and [_ok_code].  Those that
    change the way a command is run (in the background, piped, iterated
    over, ...) and the keyword arguments that stand for options of the
    command line are left out. *)

(** A program that has run to its end: exit status and output. *)
Record ProcResult := mkProc {
  proc_exit_code : N;
  proc_stdout : string;
  proc_stderr : string
}.

(** Values of the special keyword arguments. *)
Inductive special :=
| VNone
| VBool (b : bool)
| VStream (s : stream)
| VCodes (codes : list Z).

#[global] Instance stream_eq_dec : EqDecision stream.
Proof. solve_decision. Defined.

#[global] Instance special_eq_dec : EqDecision special.
Proof. solve_decision. Defined.

(** What the code runs on.  The machine: the search for an executable by
    name or path, the running interpreter, and what a program does with
    its arguments.  The [sh] that is installed: which value of a special
    keyword argument is the default one, and which sets of special keyword
    arguments it refuses, with the message of the [TypeError]. *)
Record System := mkSystem {
  which : string → option string;
  sys_executable : string;
  run_program : string → list string → ProcResult;
  sh_is_default : string → special → bool;
  sh_refuses : gmap string special → option string
}.

(** A command with the arguments and the special keyword arguments baked
    into it. *)
Record Command := mkCommand {
  cmd_path : string;
  baked_args : list string;
  call_args : gmap string special
}.

Definition ok_codes (ca : gmap string special) : list Z :=
  match ca !! "_ok_code" with
  | Some (VCodes l) => l
  | _ => [0%Z]
  end.

Definition is_empty_string (s : string) : bool :=
  match s with "" => true | _ => false end.

(** Output that goes to a stream of the process; a program that writes
    nothing leaves no trace there. *)
Definition redirect (ca : gmap string special) (key : string) (text : string)
    : M unit :=
  match ca !! key with
  | Some (VStream s) =>
      if is_empty_string text then mret tt
      else λ _ w, (Ok tt, add_console s text w)
  | _ => mret tt
  end.

(** What stays in the result.  The standard output stays unless it went
    to a stream and was not teed; the standard error does not stay once it
    goes to a stream ([_tee=True] tees the standard output only). *)
Definition captured_out (ca : gmap string special) (text : string) : string :=
  match ca !! "_out" with
  | Some (VStream _) =>
      match ca !! "_tee" with
      | Some (VBool true) => text
      | _ => ""
      end
  | _ => text
  end.

Definition captured_err (ca : gmap string special) (text : string) : string :=
  match ca !! "_err" with
  | Some (VStream _) => ""
  | _ => text
  end.

(** [try: body except <those caught>: handler]. *)
Definition try_except {A} (body : M A) (caught : exn → bool)
    (handler : exn → M A) : M A :=
  λ me w,
    match body me w with
    | (Raise e, w1) =>
        if caught e then
          match handler e me w1 with
          | (Raise e', w2) => (Raise (raised_during e e'), w2)
          | r => r
          end
        else (Raise e, w1)
    | r => r
    end.

Definition is_CommandNotFound (e : exn) : bool :=
  match exn_kind_of e with
  | CommandNotFound _ => true
  | _ => false
  end.

Section sh.
Context (sys : System).

(** [sh.Command(name)]. *)
Definition sh_Command (name : string) : M Command :=
  match which sys name with
  | Some path => mret (mkCommand path [] ∅)
  | None => raise (CommandNotFound name)
  end.

(** [Command._extract_call_args]: the special keyword arguments that were
    passed are checked together.  The checks of [sh] are about arguments
    that are there: nothing is wrong with none. *)
Definition extract_call_args (kwargs : gmap string special)
    : M (gmap string special) :=
  match (if is_nil (map_to_list kwargs) then None else sh_refuses sys kwargs)
  with
  | Some msg => raise (TypeError msg)
  | None => mret kwargs
  end.

(** The special keyword arguments that differ from their defaults. *)
Definition prune (kwargs : gmap string special) : gmap string special :=
  filter (λ kv, sh_is_default sys kv.1 kv.2 = false) kwargs.

(** [Command.bake]: a new command for the same path, which is looked up
    once more; the arguments are appended; of the special keyword
    arguments those that differ from their defaults are kept, and they win
    over the ones baked in before. *)
Definition bake (c : Command) (args : list string)
    (kwargs : gmap string special) : M Command :=
  fn ← sh_Command (cmd_path c);
  passed ← extract_call_args kwargs;
  mret (mkCommand (cmd_path fn) (baked_args c ++ args)
          (prune passed ∪ call_args c)).

(** [Command.__call__]: run the program and wait for it. *)
Definition sh_call (c : Command) (args : list string)
    (kwargs : gmap string special) : M ProcResult :=
  passed ← extract_call_args kwargs;
  let ca := passed ∪ call_args c in
  let r := run_program sys (cmd_path c) (baked_args c ++ args) in
  redirect ca "_out" (proc_stdout r);;
  redirect ca "_err" (proc_stderr r);;
  let out := captured_out ca (proc_stdout r) in
  let err := captured_err ca (proc_stderr r) in
  if bool_decide (Z.of_N (proc_exit_code r) ∈ ok_codes ca)
  then mret (mkProc (proc_exit_code r) out err)
  else raise (ErrorReturnCode (Z.of_N (proc_exit_code r)) out err).

(** ** recept/apps/app.py *)

Definition fallback_script (name : string) : string :=
  "import sys; import click; click.secho('Command `" +:+ name +:+ "` "
  +:+ "not found', fg='red'); sys.exit(1)".

Definition app (name : string) (args : list string)
    (_out _err _tee : special) (kwargs : gmap string special) : M Command :=
  try_except
    (c ← sh_Command name;
     bake c args
       (<["_out" := _out]> (<["_err" := _err]> (<["_tee" := _tee]> kwargs))))
    is_CommandNotFound
    (λ _,
       c ← sh_Command (sys_executable sys);
       bake c ["-c"; fallback_script name] ∅).

(** *** Reading the machine *)

(** The path a command for [name] ends up with: the name is looked up by
    [sh.Command], and what was found once more by [bake]. *)
Definition located (name : string) : option string :=
  which sys name ≫= which sys.

(** The lookup that fails when [name] is not located. *)
Definition not_found (name : string) : string :=
  default name (which sys name).

End sh.

(** The defaults of the keyword-only parameters of [app]. *)
Definition default_out : special := VStream SysStdout.
Definition default_err : special := VStream SysStderr.
Definition default_tee : special := VBool true.

(** ** A small machine to run things on *)
Module Demo.

Definition tree : gmap (list string) node :=
  <[ ["home"] := Dir ]>
  (<[ ["home"; "u"] := Dir ]>
  (<[ ["home"; "u"; "recept"] := Dir ]>
  (<[ ["home"; "u"; "recept"; "docs"] := Dir ]>
  (<[ ["home"; "u"; "notes.txt"] := File ]>
  (<[ ["tmp"] := Dir ]>
  (<[ ["tmp"; "work"] := Dir ]> ∅)))))).

Definition world : World := mkWorld tree ["home"; "u"] unlocked [] [].

(** The same machine, from the scratch directory. *)
Definition scratch : World := mkWorld tree ["tmp"; "work"] unlocked [] [].

Definition python : string := "/usr/bin/python3".

Definition missing : string := "definitely-not-a-real-binary-xyz".

(** [ls] and the interpreter are installed.  The interpreter ends with
    the status 1 on the script of [app] for the missing command; every
    other program ends with 0.  [sh] has [None] as default of [_out],
    [_err] and [_tee], and refuses [_err] together with [_err_to_out]. *)
Definition system : System :=
  mkSystem
    (λ name,
       if decide (name = "ls" ∨ name = "/bin/ls") then Some "/bin/ls"
       else if decide (name = python) then Some python
       else None)
    python
    (λ path argv,
       if decide (path = python ∧ argv !! 0 = Some "-c") then
         if decide (argv !! 1 = Some (fallback_script missing))
         then mkProc 1 ("Command `" +:+ missing +:+ "` not found") ""
         else mkProc 0 "" ""
       else mkProc 0 "" "")
    (λ key v,
       bool_decide (v = VNone ∧ key ∈ ["_out"; "_err"; "_tee"]))
    (λ kwargs,
       if decide (is_Some (kwargs !! "_err")
                  ∧ is_Some (kwargs !! "_err_to_out"))
       then Some "Invalid special arguments" else None).

(** A machine on which nothing is found. *)
Definition bare : System :=
  mkSystem (λ _, None) "" (λ _ _, mkProc 0 "" "") (λ _ _, false) (λ _, None).

(** The current directory of this one has been removed. *)
Definition stranded : World :=
  mkWorld tree ["tmp"; "gone"] unlocked [] [].

(** A scope within thread 0, seen from the inside, and what is left after
    it. *)
Definition scope : outcome World * World :=
  pushd (rel [Name "recept"]) false current_world 0 world.

Definition inside : World :=
  match scope.1 with Ok w => w | _ => world end.

Definition after : World := scope.2.

(** Thread 1 enters two scopes and leaves the inner one. *)
Definition schedule : list (thread * turn) :=
  [(1, Enter (rel [Name "recept"]) false);
   (1, Enter (rel [Name "docs"]) false);
   (1, Leave)].

Definition after_schedule : Process :=
  default (start_process world) (run schedule (start_process world)).

(** A block that removes the directory the scope was entered from and then
    fails. *)
Definition saw_off : M unit :=
  shutil_rmtree (abs [Name "tmp"; Name "work"]);;
  raise (Failure "boom").

End Demo.

(** *** A lock in order

    Free at level zero, or held by [me] at a level above zero. *)
Definition lock_well_formed (me : thread) (l : RLock) : bool :=
  match owner l with
  | Some o => bool_decide (o = me) && negb (bool_decide (count l = 0))
  | None => bool_decide (count l = 0)
  end.

(** * Properties *)

(** ** The model at work *)

Example normpath_dots :
  os_path_normpath (rel [Name "a"; Cur; Name "b"; Up; Name "c"; Cur])
  = rel [Name "a"; Name "c"].
Proof. reflexivity. Qed.

Example normpath_leading_up :
  os_path_normpath (rel [Up; Name "a"; Up; Up; Name "b"])
  = rel [Up; Up; Name "b"].
Proof. reflexivity. Qed.

Example normpath_root_up :
  os_path_normpath (abs [Up; Name "tmp"; Up; Up]) = abs [].
Proof. reflexivity. Qed.

Example normpath_empty : os_path_normpath (rel []) = rel [Cur].
Proof. reflexivity. Qed.

Example chdir_through_file :
  (cd (rel [Name "notes.txt"; Name "x"]) false 0 Demo.world).1
  = Raise (Exn (OSError ENOTDIR) None).
Proof. vm_compute. reflexivity. Qed.

Example makedirs_onto_file :
  (cd (rel [Name "notes.txt"]) true 0 Demo.world).1
  = Raise (Exn (OSError EEXIST) None).
Proof. vm_compute. reflexivity. Qed.

Example pushd_docstring :
  (pushd (rel [Name "foo"]) true
     (a ← cwd;
      b ← pushd (rel [Name "bar"]) true
            (b ← cwd;
             c ← pushd (rel [Name "baz"]) true cwd;
             b' ← cwd;
             mret [b; c; b']);
      a' ← cwd;
      mret (a :: b ++ [a'])) 0 Demo.world).1
  = Ok (of_location <$> [ ["home"; "u"; "foo"];
                          ["home"; "u"; "foo"; "bar"];
                          ["home"; "u"; "foo"; "bar"; "baz"];
                          ["home"; "u"; "foo"; "bar"];
                          ["home"; "u"; "foo"] ]).
Proof. vm_compute. reflexivity. Qed.

Example pushd_other_thread :
  pushd (abs [Name "tmp"]) false cwd 2 (world Demo.after_schedule)
  = (Blocks, world Demo.after_schedule).
Proof. vm_compute. reflexivity. Qed.

(** ** Walking the tree *)

Lemma walk_app t cur a b :
  walk t cur (a ++ b) =
  match walk t cur a with inr c => walk t c b | inl e => inl e end.
Proof.
  revert cur. induction a as [|s a IH]; intros cur; simpl; [done|].
  destruct s; auto.
  destruct (t !! (cur ++ [s])) as [[]|]; auto.
Qed.

Lemma walk_names t cur q d :
  walk t cur (Name <$> q) = inr d → d = cur ++ q.
Proof.
  revert cur. induction q as [|n q IH]; intros cur; simpl.
  - intros [= <-]. by rewrite app_nil_r.
  - destruct (t !! (cur ++ [n])) as [[]|]; try done.
    intros H%IH. by rewrite H, <- app_assoc.
Qed.

Lemma walk_weaken t t' cur segs d :
  t ⊆ t' → walk t cur segs = inr d → walk t' cur segs = inr d.
Proof.
  intros Hsub. revert cur. induction segs as [|s segs IH]; intros cur; simpl; [done|].
  destruct s; auto.
  destruct (t !! (cur ++ [s])) as [[]|] eqn:E; try done.
  rewrite (lookup_weaken _ _ _ _ E Hsub). auto.
Qed.

Lemma is_dir_weaken t t' d :
  t ⊆ t' → is_dir t d = true → is_dir t' d = true.
Proof.
  unfold is_dir. intros Hsub.
  destruct (walk t [] (Name <$> d)) eqn:E; [done|].
  by rewrite (walk_weaken _ _ _ _ _ Hsub E).
Qed.

Lemma is_dir_walk t d : is_dir t d = true → walk t [] (Name <$> d) = inr d.
Proof.
  unfold is_dir. destruct (walk t [] (Name <$> d)) eqn:E; [done|].
  by rewrite (walk_names _ _ _ _ E).
Qed.

Lemma is_dir_snoc t d n :
  is_dir t (d ++ [n]) = is_dir t d && bool_decide (t !! (d ++ [n]) = Some Dir).
Proof.
  unfold is_dir. rewrite fmap_app, walk_app.
  destruct (walk t [] (Name <$> d)) eqn:E; [done|].
  apply walk_names in E. simpl in E. subst. simpl.
  destruct (t !! (d ++ [n])) as [[]|]; done.
Qed.

Lemma is_dir_parent t d : is_dir t d = true → is_dir t (parent d) = true.
Proof.
  destruct d as [|n d _] using rev_ind; [done|].
  unfold parent. rewrite removelast_last, is_dir_snoc.
  by intros [? _]%andb_prop.
Qed.

Lemma walk_is_dir t cur segs d :
  is_dir t cur = true → walk t cur segs = inr d → is_dir t d = true.
Proof.
  revert cur. induction segs as [|s segs IH]; intros cur Hc; simpl.
  - by intros [= <-].
  - destruct s; eauto using is_dir_parent.
    destruct (t !! (cur ++ [s])) as [[]|] eqn:E; try done.
    apply IH. rewrite is_dir_snoc, Hc. simpl. by apply bool_decide_eq_true.
Qed.

(** ** Creating directories, normalising paths *)

Lemma is_dir_insert t d n :
  t !! (d ++ [n]) = None → is_dir t d = true →
  is_dir (<[d ++ [n] := Dir]> t) (d ++ [n]) = true.
Proof.
  intros E Hd. rewrite is_dir_snoc. apply andb_true_intro. split.
  - eapply is_dir_weaken; [|exact Hd]. by apply insert_subseteq.
  - apply bool_decide_eq_true. apply lookup_insert_eq.
Qed.

Lemma walk_create_subseteq t cur segs : t ⊆ (walk_create t cur segs).1.
Proof.
  revert t cur. induction segs as [|s segs IH]; intros t cur; simpl; [done|].
  destruct s; auto.
  destruct (t !! (cur ++ [s])) as [[]|] eqn:E; auto.
  destruct (is_dir t cur); [|done].
  etrans; [|apply IH]. by apply insert_subseteq.
Qed.

Lemma walk_create_walk t cur segs t' d :
  walk_create t cur segs = (t', inr d) → walk t' cur segs = inr d.
Proof.
  revert t cur. induction segs as [|s segs IH]; intros t cur; simpl.
  - by intros [= <- <-].
  - destruct s; eauto.
    destruct (t !! (cur ++ [s])) as [[]|] eqn:E; try done; intros H.
    + pose proof (walk_create_subseteq t (cur ++ [s]) segs) as Hsub.
      rewrite H in Hsub. simpl in Hsub. rewrite (lookup_weaken _ _ _ _ E Hsub). eauto.
    + destruct (is_dir t cur); [|done].
      pose proof (walk_create_subseteq (<[cur ++ [s] := Dir]> t)
                    (cur ++ [s]) segs) as Hsub.
      rewrite H in Hsub. simpl in Hsub.
      assert (t' !! (cur ++ [s]) = Some Dir) as ->; [|eauto].
      eapply lookup_weaken; [|exact Hsub]. apply lookup_insert_eq.
Qed.

Lemma walk_create_noop t cur segs d :
  walk t cur segs = inr d → walk_create t cur segs = (t, inr d).
Proof.
  revert cur. induction segs as [|s segs IH]; intros cur; simpl.
  - by intros [= <-].
  - destruct s; eauto.
    destruct (t !! (cur ++ [s])) as [[]|] eqn:E; try done; eauto.
Qed.

Lemma file_in_the_way_false t d k :
  file_in_the_way t d = false → t !! take k d ≠ Some File.
Proof.
  unfold file_in_the_way. intros H E.
  destruct (decide (k ≤ length d)) as [Hk|Hk].
  - assert (existsb (λ k, bool_decide (t !! take k d = Some File)) (seq 0 (S (length d))) = true); [|congruence].
    apply existsb_exists. exists k. split; [apply in_seq; lia|].
    by apply bool_decide_eq_true.
  - rewrite take_ge in E by lia.
    assert (existsb (λ k, bool_decide (t !! take k d = Some File)) (seq 0 (S (length d))) = true); [|congruence].
    apply existsb_exists. exists (length d). split; [apply in_seq; lia|].
    apply bool_decide_eq_true. by rewrite firstn_all.
Qed.

Lemma walk_create_names t cur q :
  is_dir t cur = true →
  (∀ k, t !! (cur ++ take k q) ≠ Some File) →
  ∃ t', walk_create t cur (Name <$> q) = (t', inr (cur ++ q)).
Proof.
  revert t cur. induction q as [|n q IH]; intros t cur Hd H; csimpl.
  - exists t. by rewrite app_nil_r.
  - destruct (t !! (cur ++ [n])) as [[]|] eqn:E.
    + by destruct (H 1).
    + destruct (IH t (cur ++ [n])) as [t' Ht'].
      { rewrite is_dir_snoc, Hd. simpl. by apply bool_decide_eq_true. }
      { intros k. rewrite <- app_assoc. apply (H (S k)). }
      exists t'. by rewrite Ht', <- app_assoc.
    + rewrite Hd.
      destruct (IH (<[cur ++ [n] := Dir]> t) (cur ++ [n])) as [t' Ht'].
      { by apply is_dir_insert. }
      { intros k. rewrite lookup_insert. case_decide; [done|].
        rewrite <- app_assoc. apply (H (S k)). }
      exists t'. by rewrite Ht', <- app_assoc.
Qed.

(** All that a creation along names adds are directories on the way. *)
Lemma walk_create_keys t cur q :
  ∀ key v, (walk_create t cur (Name <$> q)).1 !! key = Some v →
    t !! key = Some v
    ∨ (v = Dir ∧ ∃ k, k < length q ∧ key = cur ++ take (S k) q).
Proof.
  revert t cur. induction q as [|n q IH]; intros t cur; csimpl; [auto|].
  destruct (t !! (cur ++ [n])) as [[]|] eqn:E; [auto| |].
  - intros key v Hk. destruct (IH _ _ key v Hk) as [?|[-> (k & ? & ->)]];
      [by left|].
    right. split; [done|]. exists (S k). split; [lia|].
    by rewrite <- app_assoc.
  - destruct (is_dir t cur); [|auto].
    intros key v Hk. destruct (IH _ _ key v Hk) as [Hin|[-> (k & ? & ->)]].
    + rewrite lookup_insert in Hin. case_decide as Hc; [|by left].
      injection Hin as <-. right. split; [done|]. exists 0.
      split; [lia|]. by subst.
    + right. split; [done|]. exists (S k). split; [lia|].
      by rewrite <- app_assoc.
Qed.

(** Whatever a creation adds is a directory. *)
Lemma walk_create_dirs t cur segs :
  ∀ key v, (walk_create t cur segs).1 !! key = Some v →
    t !! key = Some v ∨ v = Dir.
Proof.
  revert t cur. induction segs as [|s segs IH]; intros t cur; simpl; [auto|].
  destruct s; [apply IH..|].
  destruct (t !! (cur ++ [s])) as [[]|] eqn:E; [auto|apply IH|].
  destruct (is_dir t cur); [|auto].
  intros key v Hk. destruct (IH _ _ key v Hk) as [Hin|?]; [|by right].
  rewrite lookup_insert in Hin. case_decide; [|by left].
  injection Hin as <-. by right.
Qed.

Lemma removelast_fmap {A B} (f : A → B) (l : list A) :
  removelast (f <$> l) = f <$> removelast l.
Proof.
  destruct l as [|x l _] using rev_ind; [done|].
  rewrite fmap_app. csimpl. by rewrite !removelast_last.
Qed.

Lemma ends_with_up_names (l : list string) : ends_with_up (Name <$> l) = false.
Proof. unfold ends_with_up. rewrite fmap_last. by destruct (last l). Qed.

Lemma normpath_absolute cur segs :
  fold_left (normpath_step true) segs (Name <$> cur)
  = Name <$> norm_location cur segs.
Proof.
  revert cur. induction segs as [|s segs IH]; intros cur; simpl; [done|].
  destruct s; simpl.
  - apply IH.
  - rewrite ends_with_up_names, removelast_fmap. apply IH.
  - rewrite <- (IH (cur ++ [s])). by rewrite fmap_app.
Qed.

Lemma norm_location_names cur q : norm_location cur (Name <$> q) = cur ++ q.
Proof.
  revert cur. induction q as [|n q IH]; intros cur; csimpl.
  - by rewrite app_nil_r.
  - unfold norm_location in *. simpl. by rewrite IH, <- app_assoc.
Qed.

Lemma norm_location_app cur a b :
  norm_location cur (a ++ b) = norm_location (norm_location cur a) b.
Proof. apply fold_left_app. Qed.

Lemma walk_norm_location t cur segs d :
  walk t cur segs = inr d → d = norm_location cur segs.
Proof.
  revert cur. induction segs as [|s segs IH]; intros cur; simpl.
  - by intros [= <-].
  - destruct s; eauto.
    destruct (t !! (cur ++ [s])) as [[]|]; try done; eauto.
Qed.

Lemma normpath_at d p :
  os_path_normpath (if absolute p then p else os_path_join (of_location d) p)
  = of_location (abspath_location d p).
Proof.
  unfold os_path_normpath, abspath_location, of_location, os_path_join, abs.
  destruct p as [[] segs]; simpl.
  - by rewrite (normpath_absolute []).
  - rewrite fold_left_app.
    rewrite (normpath_absolute [] (Name <$> d)), norm_location_names. simpl.
    by rewrite normpath_absolute.
Qed.

(** ** The calls, one by one *)

Ltac unfold_M :=
  unfold mbind, M_bind, mret, M_ret, raise, try_finally, on_failure in *.

Lemma pushd_unfold path create A (block : M A) me w :
  pushd path create block me w =
  match pushd_enter path create me w with
  | (Ok fr, w1) =>
      try_finally (try_finally block (pushd_restore fr))
        (RLock_release PUSHD_LOCK) me w1
  | (Raise e, w1) => (Raise e, w1)
  | (Blocks, w1) => (Blocks, w1)
  end.
Proof.
  unfold pushd, with_lock, with_RLock, pushd_wrapped, pushd_enter, pushd_restore.
  unfold_M. simpl.
  destruct (RLock_acquire PUSHD_LOCK me w) as [[[]| |] wa]; try done.
  destruct (os_getcwd me wa) as [[c| |] w1]; try done.
  2:{ by destruct (RLock_release PUSHD_LOCK me w1) as [[[]| |] ?]. }
  destruct (os_path_abspath path me w1) as [[p| |] w2]; try done.
  2:{ by destruct (RLock_release PUSHD_LOCK me w2) as [[[]| |] ?]. }
  destruct ((if create then os_makedirs p else λ _ w, (Ok tt, w)) me w2) as [[[]| |] w3]; try done.
  2:{ by destruct (RLock_release PUSHD_LOCK me w3) as [[[]| |] ?]. }
  destruct (os_chdir p me _) as [[[]| |] w5]; try done.
  by destruct (RLock_release PUSHD_LOCK me w5) as [[[]| |] ?].
Qed.

Lemma RLock_acquire_available me w :
  lock_available me (PUSHD_LOCK_state w) = true →
  RLock_acquire PUSHD_LOCK me w
  = (Ok tt, set_lock (acquired me (PUSHD_LOCK_state w)) w).
Proof.
  unfold lock_available, acquired, RLock_acquire. simpl.
  destruct (owner (PUSHD_LOCK_state w)); [|done].
  intros ->%bool_decide_eq_true. by rewrite decide_True.
Qed.

Lemma RLock_acquire_held me w :
  lock_available me (PUSHD_LOCK_state w) = false →
  RLock_acquire PUSHD_LOCK me w = (Blocks, w).
Proof.
  unfold lock_available, RLock_acquire. simpl.
  destruct (owner (PUSHD_LOCK_state w)); [|done].
  intros H%bool_decide_eq_false. by rewrite decide_False.
Qed.

Lemma os_getcwd_Ok me w :
  is_dir (fs w) (wd w) = true → os_getcwd me w = (Ok (of_location (wd w)), w).
Proof. unfold os_getcwd. by intros ->. Qed.

Lemma os_getcwd_inv me w r w' :
  os_getcwd me w = (r, w') →
  w' = w ∧
  (r = Ok (of_location (wd w)) ∧ is_dir (fs w) (wd w) = true
   ∨ r = Raise (Exn (OSError ENOENT) None) ∧ is_dir (fs w) (wd w) = false).
Proof. unfold os_getcwd. destruct (is_dir _ _); intros [= <- <-]; auto. Qed.

Lemma os_path_abspath_Ok path me w :
  is_dir (fs w) (wd w) = true →
  os_path_abspath path me w
  = (Ok (of_location (abspath_location (wd w) path)), w).
Proof.
  intros Hd. unfold os_path_abspath.
  pose proof (normpath_at (wd w) path) as Hn.
  destruct (absolute path); unfold_M.
  - by rewrite Hn.
  - by rewrite (os_getcwd_Ok _ _ Hd), Hn.
Qed.

Lemma resolve_of_location t d d' :
  is_dir t d = true → resolve t d' (of_location d) = inr d.
Proof. intros H. unfold resolve. simpl. by apply is_dir_walk. Qed.

Lemma resolve_of_location_inv t d d' r :
  resolve t d' (of_location d) = inr r → r = d ∧ is_dir t d = true.
Proof.
  unfold resolve. simpl. intros H. pose proof (walk_names _ _ _ _ H) as ->.
  split; [done|]. unfold is_dir. by rewrite H.
Qed.

Lemma os_chdir_location d me w :
  is_dir (fs w) d = true → os_chdir (of_location d) me w = (Ok tt, set_wd d w).
Proof. intros H. unfold os_chdir. by rewrite (resolve_of_location _ _ _ H). Qed.

Lemma os_chdir_location_gone d me w :
  is_dir (fs w) d = false →
  ∃ e, os_chdir (of_location d) me w = (Raise (Exn (OSError e) None), w).
Proof.
  intros H. unfold os_chdir.
  destruct (resolve (fs w) (wd w) (of_location d)) as [e|r] eqn:E; [by eexists|].
  apply resolve_of_location_inv in E as [_ E]. congruence.
Qed.

Lemma os_makedirs_inv path me w r w' :
  os_makedirs path me w = (r, w') →
  r ≠ Blocks ∧ ∃ t, w' = set_fs t w ∧ fs w ⊆ t
                    ∧ ∀ key v, t !! key = Some v →
                        fs w !! key = Some v ∨ v = Dir.
Proof.
  unfold os_makedirs.
  destruct (start_of (wd w) path) as [e|cur].
  { intros [= <- <-]. split; [done|]. exists (fs w). destruct w; auto. }
  pose proof (walk_create_subseteq (fs w) cur (segments path)) as Hsub.
  pose proof (walk_create_dirs (fs w) cur (segments path)) as Hdirs.
  destruct (walk_create _ _ _) as [t [e|d]]; intros [= <- <-].
  all: split; [done|]; by exists t.
Qed.

Lemma os_makedirs_location_inv d me w r w' :
  os_makedirs (of_location d) me w = (r, w') →
  ∃ t, w' = set_fs t w ∧ fs w ⊆ t
       ∧ (∀ key v, t !! key = Some v →
            fs w !! key = Some v
            ∨ (v = Dir ∧ ∃ k, k < length d ∧ key = take (S k) d))
       ∧ ((∃ e, r = Raise (Exn (OSError e) None))
          ∨ (r = Ok tt ∧ is_dir t d = true)).
Proof.
  unfold os_makedirs. simpl.
  pose proof (walk_create_subseteq (fs w) [] (Name <$> d)) as Hsub.
  pose proof (walk_create_keys (fs w) [] d) as Hkeys.
  destruct (walk_create (fs w) [] (Name <$> d)) as [t [e|d']] eqn:E;
    intros [= <- <-]; exists t.
  all: split; [done|]; split; [done|]; split; [done|].
  - left. eauto.
  - right. split; [done|].
    unfold is_dir. by rewrite (walk_create_walk _ _ _ _ _ E).
Qed.

Lemma os_makedirs_existing path me w d :
  resolve (fs w) (wd w) path = inr d →
  os_makedirs path me w = (Ok tt, w).
Proof.
  unfold resolve, os_makedirs.
  destruct (start_of (wd w) path) as [e|cur]; [done|].
  intros H%walk_create_noop. rewrite H. by destruct w.
Qed.

(** What a successful entry has done. *)
Lemma pushd_enter_Ok_inv path create me w fr w1 :
  pushd_enter path create me w = (Ok fr, w1) →
  let target := abspath_location (wd w) path in
  lock_available me (PUSHD_LOCK_state w) = true
  ∧ is_dir (fs w) (wd w) = true
  ∧ fr = mkFrame (of_location (wd w)) (of_location target)
  ∧ fs w ⊆ fs w1
  ∧ (create = false → fs w1 = fs w)
  ∧ is_dir (fs w1) target = true
  ∧ wd w1 = target
  ∧ PUSHD_LOCK_state w1 = acquired me (PUSHD_LOCK_state w)
  ∧ debug_log w1 = debug_log w ++ [mkLog "pushd -> %s" (of_location target)]
  ∧ console w1 = console w.
Proof.
  intros H target.
  destruct (lock_available me (PUSHD_LOCK_state w)) eqn:Hl.
  2:{ unfold pushd_enter in H. unfold_M. by rewrite (RLock_acquire_held _ _ Hl) in H. }
  unfold pushd_enter in H. unfold_M. rewrite (RLock_acquire_available _ _ Hl) in H.
  set (wa := set_lock _ w) in H.
  destruct (os_getcwd me wa) as [r w0] eqn:Hg.
  apply os_getcwd_inv in Hg as [-> [[-> Hd]|[-> Hd]]].
  2:{ by destruct (RLock_release PUSHD_LOCK me wa) as [[[]| |] ?]. }
  rewrite (os_path_abspath_Ok _ _ _ Hd) in H. simpl in Hd, H. fold target in H.
  assert (∃ t, (if create then os_makedirs (of_location target)
                else λ _ w, (Ok tt, w)) me wa = (Ok tt, set_fs t wa)
               ∧ fs w ⊆ t ∧ (create = false → t = fs w)
               ∧ (create = true → is_dir t target = true)) as (t & Hm & Hsub & Hno & Hyes).
  { destruct create.
    - destruct (os_makedirs (of_location target) me wa) as [r w0] eqn:Hm.
      apply os_makedirs_location_inv in Hm
        as (t & -> & ? & _ & [[e ->]|[-> ?]]).
      + by destruct (RLock_release PUSHD_LOCK me _) as [[[]| |] ?].
      + exists t. done.
    - exists (fs w). done. }
  rewrite Hm in H.
  unfold os_chdir, logger_debug in H. simpl in H.
  destruct (resolve t (wd w) (of_location target)) as [e|d] eqn:Hr.
  { by destruct (RLock_release PUSHD_LOCK me _) as [[[]| |] ?]. }
  apply resolve_of_location_inv in Hr as [-> Ht].
  injection H as <- <-. simpl. done.
Qed.

Lemma RLock_release_owner me w :
  owner (PUSHD_LOCK_state w) = Some me →
  RLock_release PUSHD_LOCK me w
  = (Ok tt, set_lock (released me (PUSHD_LOCK_state w)) w).
Proof.
  unfold RLock_release, released. simpl. intros ->.
  rewrite decide_True by done. by destruct (count _ - 1).
Qed.

Lemma RLock_release_frame me w :
  let w' := (RLock_release PUSHD_LOCK me w).2 in
  fs w' = fs w ∧ wd w' = wd w ∧ debug_log w' = debug_log w
  ∧ console w' = console w.
Proof.
  unfold RLock_release. simpl.
  destruct (decide _); [|done]. by destruct (count _ - 1).
Qed.

Lemma RLock_release_never_blocks me w :
  (RLock_release PUSHD_LOCK me w).1 ≠ Blocks.
Proof.
  unfold RLock_release. simpl.
  destruct (decide _); [|done]. by destruct (count _ - 1).
Qed.

Lemma owner_acquired me l : owner (acquired me l) = Some me.
Proof. unfold acquired. by destruct (owner l). Qed.

Lemma cwd_Ok me w :
  is_dir (fs w) (wd w) = true → cwd me w = (Ok (of_location (wd w)), w).
Proof.
  intros H. unfold cwd. unfold_M. rewrite (os_getcwd_Ok _ _ H).
  rewrite (os_path_abspath_Ok _ _ _ H).
  unfold abspath_location. simpl. by rewrite norm_location_names.
Qed.

(** How a scope that was entered ends. *)
Lemma scope_exit_restored A (block : M A) fr me w1 r w2 start p :
  fr = mkFrame (of_location start) p →
  block me w1 = (r, w2) → r ≠ Blocks →
  is_dir (fs w2) start = true →
  owner (PUSHD_LOCK_state w2) = Some me →
  try_finally (try_finally block (pushd_restore fr))
    (RLock_release PUSHD_LOCK) me w1
  = (r, set_lock (released me (PUSHD_LOCK_state w2))
          (set_wd start (add_log (mkLog "pushd <- %s" p) w2))).
Proof.
  intros -> Hb Hr Hd Ho.
  unfold try_finally, pushd_restore. unfold_M. rewrite Hb.
  unfold logger_debug. simpl.
  rewrite (os_chdir_location start me (add_log _ w2)) by done.
  destruct r as [a|e|]; [| |done];
    by rewrite RLock_release_owner.
Qed.

Lemma scope_exit_stranded A (block : M A) fr me w1 r w2 start p :
  fr = mkFrame (of_location start) p →
  block me w1 = (r, w2) → r ≠ Blocks →
  is_dir (fs w2) start = false →
  owner (PUSHD_LOCK_state w2) = Some me →
  ∃ err,
    try_finally (try_finally block (pushd_restore fr))
      (RLock_release PUSHD_LOCK) me w1
    = (Raise (Exn (OSError err)
                (match r with Raise e => Some e | _ => None end)),
       set_lock (released me (PUSHD_LOCK_state w2))
         (add_log (mkLog "pushd <- %s" p) w2)).
Proof.
  intros -> Hb Hr Hd Ho.
  destruct (os_chdir_location_gone start me
              (add_log (mkLog "pushd <- %s" p) w2) Hd) as [err He].
  exists err.
  unfold try_finally, pushd_restore. unfold_M. rewrite Hb.
  unfold logger_debug. simpl. rewrite He.
  destruct r as [a|e|]; [| |done];
    by rewrite RLock_release_owner.
Qed.

Lemma scope_exit_wd A (block : M A) fr me w1 r w2 start p :
  fr = mkFrame (of_location start) p →
  block me w1 = (r, w2) → r ≠ Blocks →
  let w' := (try_finally (try_finally block (pushd_restore fr))
               (RLock_release PUSHD_LOCK) me w1).2 in
  wd w' = (if is_dir (fs w2) start then start else wd w2)
  ∧ fs w' = fs w2.
Proof.
  intros -> Hb Hr.
  unfold try_finally, pushd_restore. unfold_M. rewrite Hb.
  unfold logger_debug. simpl.
  destruct (is_dir (fs w2) start) eqn:Hd.
  - rewrite (os_chdir_location start me (add_log _ w2)) by done.
    destruct r as [a|e|]; [| |done].
    all: pose proof (RLock_release_frame me
           (set_wd start (add_log (mkLog "pushd <- %s" p) w2))) as (Hf & Hw & _).
    all: pose proof (RLock_release_never_blocks me
           (set_wd start (add_log (mkLog "pushd <- %s" p) w2))) as Hn.
    all: destruct (RLock_release PUSHD_LOCK me _) as [[[]| |] w3]; done.
  - destruct (os_chdir_location_gone start me
                (add_log (mkLog "pushd <- %s" p) w2) Hd) as [err ->].
    destruct r as [a|e|]; [| |done].
    all: pose proof (RLock_release_frame me
           (add_log (mkLog "pushd <- %s" p) w2)) as (Hf & Hw & _).
    all: pose proof (RLock_release_never_blocks me
           (add_log (mkLog "pushd <- %s" p) w2)) as Hn.
    all: destruct (RLock_release PUSHD_LOCK me _) as [[[]| |] w3]; done.
Qed.

(** C3: when [pushd path] is entered, leaving the scope again brings
    [cwd()] back to the value it had before the entry: entry followed by
    exit is the identity on the working directory. *)
Theorem pushd_round_trip path create me w fr w1 :
  pushd_enter path create me w = (Ok fr, w1) →
  ∃ before w2,
    cwd me w = (Ok before, w)
    ∧ pushd path create (mret tt) me w = (Ok tt, w2)
    ∧ cwd me w2 = (Ok before, w2).
Proof.
  intros He.
  destruct (pushd_enter_Ok_inv _ _ _ _ _ _ He)
    as (Hl & Hd & Hfr & Hsub & _ & _ & _ & Hlock & _).
  exists (of_location (wd w)). eexists. split; [by apply cwd_Ok|].
  rewrite pushd_unfold, He.
  erewrite (scope_exit_restored unit (mret tt) fr me w1 (Ok tt) w1);
    [|exact Hfr|done|done|by eapply is_dir_weaken|by rewrite Hlock, owner_acquired].
  split; [reflexivity|]. rewrite cwd_Ok; [done|]. simpl. by eapply is_dir_weaken.
Qed.

Lemma pushd_round_trip_witness :
  ∃ before w2,
    cwd 0 Demo.world = (Ok before, Demo.world)
    ∧ pushd (rel [Name "recept"]) false (mret tt) 0 Demo.world = (Ok tt, w2)
    ∧ cwd 0 w2 = (Ok before, w2).
Proof.
  eapply (pushd_round_trip (rel [Name "recept"]) false 0 Demo.world).
  vm_compute. reflexivity.
Defined.

Lemma scope_exit_world A (block : M A) fr me w1 r w2 :
  block me w1 = (r, w2) → r ≠ Blocks →
  (try_finally (try_finally block (pushd_restore fr))
     (RLock_release PUSHD_LOCK) me w1).2
  = (pushd_exit fr me w2).2.
Proof.
  intros Hb Hr. unfold pushd_exit, try_finally. rewrite Hb.
  destruct (os_chdir (restore_point fr) me
              (add_log (mkLog "pushd <- %s" (entered fr)) w2))
    as [o w3] eqn:Hc.
  assert (o ≠ Blocks) as Ho.
  { unfold os_chdir in Hc. destruct (resolve _ _ _); by injection Hc as <- _. }
  unfold pushd_restore, logger_debug. unfold_M. simpl. rewrite Hc.
  destruct r as [a|e|]; [| |done]; destruct o as [[]|e'|]; try done.
  all: by destruct (RLock_release PUSHD_LOCK me w3) as [[[]| |] w4].
Qed.

(** C10: the directory recorded at entry is the absolute one the scope was
    entered from, and the exit changes into it whatever the block did to
    the working directory in between and however the block ended: the
    world after the scope is the world the block left, after the exit half
    of the scope; the working directory then is the recorded one.
    (Changing into it can only fail when the block has removed it.) *)
Theorem pushd_restores_snapshot A path create (block : M A) me w fr w1 r w2 :
  pushd_enter path create me w = (Ok fr, w1) →
  block me w1 = (r, w2) →
  r ≠ Blocks →
  restore_point fr = of_location (wd w)
  ∧ (pushd path create block me w).2 = (pushd_exit fr me w2).2
  ∧ wd (pushd path create block me w).2
    = (if is_dir (fs w2) (wd w) then wd w else wd w2).
Proof.
  intros He Hb Hr.
  destruct (pushd_enter_Ok_inv _ _ _ _ _ _ He) as (_ & _ & Hfr & _).
  split; [by rewrite Hfr|].
  rewrite pushd_unfold, He. split; [by apply (scope_exit_world _ _ _ _ _ r)|].
  by destruct (scope_exit_wd A block fr me w1 r w2 _ _ Hfr Hb Hr) as [-> _].
Qed.

Lemma pushd_restores_snapshot_witness :
  wd (pushd (rel [Name "recept"]) false
        (cd (abs [Name "tmp"]) false) 0 Demo.world).2
  = ["home"; "u"].
Proof.
  pose proof (pushd_restores_snapshot unit (rel [Name "recept"]) false
                (cd (abs [Name "tmp"]) false) 0 Demo.world) as H.
  edestruct H as (_ & _ & Hwd);
    [vm_compute; reflexivity|vm_compute; reflexivity|done|].
  rewrite Hwd. vm_compute. reflexivity.
Defined.

(** What makes an entry succeed. *)
Lemma pushd_enter_Ok path (create : bool) me w t :
  let target := abspath_location (wd w) path in
  lock_available me (PUSHD_LOCK_state w) = true →
  is_dir (fs w) (wd w) = true →
  (if create
   then ∃ d, walk_create (fs w) [] (Name <$> target) = (t, inr d)
   else t = fs w) →
  is_dir t target = true →
  pushd_enter path create me w
  = (Ok (mkFrame (of_location (wd w)) (of_location target)),
     mkWorld t target (acquired me (PUSHD_LOCK_state w))
       (debug_log w ++ [mkLog "pushd -> %s" (of_location target)])
       (console w)).
Proof.
  intros target Hl Hd Hc Ht.
  unfold pushd_enter. unfold_M. rewrite (RLock_acquire_available _ _ Hl).
  rewrite os_getcwd_Ok by done.
  rewrite os_path_abspath_Ok by done. simpl. fold target.
  assert ((if create then os_makedirs (of_location target)
           else λ _ w, (Ok tt, w)) me
            (set_lock (acquired me (PUSHD_LOCK_state w)) w)
          = (Ok tt, set_fs t (set_lock (acquired me (PUSHD_LOCK_state w)) w)))
    as ->.
  { destruct create.
    - destruct Hc as [d Hc]. unfold os_makedirs. simpl. by rewrite Hc.
    - subst t. by destruct w. }
  unfold logger_debug, os_chdir. simpl.
  by rewrite (resolve_of_location _ _ _ Ht).
Qed.

(** What a failed entry leaves behind. *)
Lemma pushd_enter_Raise_inv path create me w e w' :
  pushd_enter path create me w = (Raise e, w') →
  wd w' = wd w ∧ fs w ⊆ fs w' ∧ (create = false → fs w' = fs w).
Proof.
  intros H.
  destruct (lock_available me (PUSHD_LOCK_state w)) eqn:Hl.
  2:{ unfold pushd_enter in H. unfold_M. by rewrite (RLock_acquire_held _ _ Hl) in H. }
  unfold pushd_enter in H. unfold_M. rewrite (RLock_acquire_available _ _ Hl) in H.
  set (wa := set_lock _ w) in H.
  assert (∀ w0 : World, (RLock_release PUSHD_LOCK me w0).1 ≠ Blocks
            ∧ fs (RLock_release PUSHD_LOCK me w0).2 = fs w0
            ∧ wd (RLock_release PUSHD_LOCK me w0).2 = wd w0) as Hrel.
  { intros w0. split; [apply RLock_release_never_blocks|].
    by destruct (RLock_release_frame me w0) as (? & ? & _). }
  destruct (os_getcwd me wa) as [r w0] eqn:Hg.
  apply os_getcwd_inv in Hg as [-> [[-> Hd]|[-> Hd]]].
  2:{ destruct (Hrel wa) as (Hn & Hf & Hw).
      destruct (RLock_release PUSHD_LOCK me wa) as [[[]| |] w3];
        try done; injection H as _ <-; simpl in *; by rewrite Hf, Hw. }
  rewrite (os_path_abspath_Ok _ _ _ Hd) in H. simpl in Hd, H.
  set (target := abspath_location (wd w) path) in H.
  assert (∃ r t, (if create then os_makedirs (of_location target)
                  else λ _ w, (Ok tt, w)) me wa = (r, set_fs t wa)
               ∧ fs w ⊆ t ∧ (create = false → t = fs w) ∧ r ≠ Blocks)
    as (r & t & Hm & Hsub & Hno & Hr).
  { destruct create.
    - destruct (os_makedirs (of_location target) me wa) as [r w0] eqn:Hm.
      apply os_makedirs_location_inv in Hm
        as (t & -> & ? & _ & [[e0 ->]|[-> ?]]).
      + by exists (Raise (Exn (OSError e0) None)), t.
      + by exists (Ok tt), t.
    - exists (Ok tt), (fs w). by destruct w. }
  rewrite Hm in H. destruct r as [[]|e0|]; [| |done].
  - unfold os_chdir, logger_debug in H. simpl in H.
    destruct (resolve t (wd w) (of_location target)) as [e0|d] eqn:Hres.
    + match type of H with context [RLock_release PUSHD_LOCK me ?w0] =>
        destruct (Hrel w0) as (Hn & Hf & Hw);
        destruct (RLock_release PUSHD_LOCK me w0) as [[[]| |] w3]
      end; try done; injection H as _ <-; simpl in *; rewrite Hf, Hw; auto.
    + done.
  - destruct (Hrel (set_fs t wa)) as (Hn & Hf & Hw).
    destruct (RLock_release PUSHD_LOCK me (set_fs t wa)) as [[[]| |] w3];
      try done; injection H as _ <-; simpl in *; rewrite Hf, Hw; auto.
Qed.

Lemma cd_Raise_inv path create me w e w' :
  cd path create me w = (Raise e, w') →
  wd w' = wd w ∧ (create = false → fs w' = fs w).
Proof.
  unfold cd, os_makedirs, os_chdir, logger_debug. unfold_M.
  destruct create.
  - destruct (start_of (wd w) path) as [e0|cur];
      [by intros [= _ <-]|].
    destruct (walk_create (fs w) cur (segments path)) as [t [e0|d]];
      [by intros [= _ <-]|].
    simpl. destruct (resolve t (wd w) path); [by intros [= _ <-]|done].
  - simpl. destruct (resolve (fs w) (wd w) path); [by intros [= _ <-]|done].
Qed.

(** A scope whose block leaves the lock as it found it and the directory
    of the entry in place. *)
Lemma pushd_scope A path create (block : M A) me w fr w1 r w2 :
  pushd_enter path create me w = (Ok fr, w1) →
  block me w1 = (r, w2) →
  r ≠ Blocks →
  is_dir (fs w2) (wd w) = true →
  PUSHD_LOCK_state w2 = PUSHD_LOCK_state w1 →
  pushd path create block me w
  = (r, set_lock (released me (PUSHD_LOCK_state w1))
          (set_wd (wd w)
             (add_log (mkLog "pushd <- %s" (entered fr)) w2))).
Proof.
  intros He Hb Hr Hd Hlk.
  destruct (pushd_enter_Ok_inv _ _ _ _ _ _ He)
    as (_ & _ & Hfr & _ & _ & _ & _ & Hlock & _).
  rewrite pushd_unfold, He, <- Hlk.
  assert (entered fr = of_location (abspath_location (wd w) path)) as ->
    by by rewrite Hfr.
  apply (scope_exit_restored A block fr me w1 r w2 (wd w)); try done.
  by rewrite Hlk, Hlock, owner_acquired.
Qed.

(** A scope around a block that only looks. *)
Lemma pushd_looking A path create (block : M A) me w fr w1 a :
  pushd_enter path create me w = (Ok fr, w1) →
  block me w1 = (Ok a, w1) →
  pushd path create block me w
  = (Ok a, set_lock (released me (PUSHD_LOCK_state w1))
             (set_wd (wd w)
                (add_log (mkLog "pushd <- %s" (entered fr)) w1))).
Proof.
  intros He Hb.
  destruct (pushd_enter_Ok_inv _ _ _ _ _ _ He) as (_ & Hd & _ & Hsub & _).
  apply (pushd_scope A path create block me w fr w1 (Ok a) w1); try done.
  by eapply is_dir_weaken.
Qed.

Lemma try_finally_Ok_inv A (body : M A) fin me w a w' :
  try_finally body fin me w = (Ok a, w') →
  ∃ w1, body me w = (Ok a, w1) ∧ fin me w1 = (Ok tt, w').
Proof.
  unfold try_finally. destruct (body me w) as [[a0|e|] w1]; [| |done].
  - destruct (fin me w1) as [[[]|e'|] w2] eqn:Hf; [|done..].
    intros [= <- <-]. by exists w1.
  - by destruct (fin me w1) as [[[]|e'|] w2].
Qed.

(** A scope that ended well: it was entered, the block returned, and the
    way back was there. *)
Lemma pushd_Ok_inv A path create (block : M A) me w a w' :
  pushd path create block me w = (Ok a, w') →
  ∃ fr w1 w2,
    pushd_enter path create me w = (Ok fr, w1)
    ∧ block me w1 = (Ok a, w2)
    ∧ is_dir (fs w2) (wd w) = true
    ∧ owner (PUSHD_LOCK_state w2) = Some me
    ∧ w' = set_lock (released me (PUSHD_LOCK_state w2))
             (set_wd (wd w)
                (add_log (mkLog "pushd <- %s" (entered fr)) w2)).
Proof.
  rewrite pushd_unfold.
  destruct (pushd_enter path create me w) as [[fr| |] w1] eqn:He; [|done..].
  destruct (pushd_enter_Ok_inv _ _ _ _ _ _ He) as (_ & _ & Hfr & _).
  intros (w3 & (w2 & Hb & Hback)%try_finally_Ok_inv & Hrel)%try_finally_Ok_inv.
  exists fr, w1, w2. split; [done|]. split; [done|].
  unfold pushd_restore, logger_debug in Hback. unfold_M.
  rewrite Hfr in Hback. simpl in Hback.
  destruct (is_dir (fs w2) (wd w)) eqn:Hd.
  2:{ destruct (os_chdir_location_gone (wd w) me
                  (add_log (mkLog "pushd <- %s"
                     (of_location (abspath_location (wd w) path))) w2) Hd)
        as [err Herr].
      by rewrite Herr in Hback. }
  rewrite (os_chdir_location (wd w) me (add_log _ w2)) in Hback by done.
  injection Hback as <-.
  assert (owner (PUSHD_LOCK_state w2) = Some me) as Ho.
  { unfold RLock_release in Hrel. simpl in Hrel.
    by destruct (decide (owner (PUSHD_LOCK_state w2) = Some me)). }
  split; [done|]. split; [done|].
  rewrite RLock_release_owner in Hrel by done.
  injection Hrel as <-. by rewrite Hfr.
Qed.

(** C5: [cd] and [pushd] fail atomically.  However [cd] fails, the working
    directory is the one from before the call.  When the creation fails,
    that failure is the one of the call, and the working directory and the
    log are as they were; directories that were made before the failure
    stay.  [cd] without [create] on a path that does not lead to a
    directory raises the [OSError] of the lookup.  A [pushd] that fails
    with an empty block has failed on the way in: the working directory is
    as it was, and with any other block the call ends the same way, the
    block not being run. *)
Theorem cd_pushd_fail_atomically path create me w :
  (∀ e w', cd path create me w = (Raise e, w') → wd w' = wd w)
  ∧ (∀ e w', os_makedirs path me w = (Raise e, w') →
       cd path true me w = (Raise e, w')
       ∧ wd w' = wd w ∧ debug_log w' = debug_log w ∧ fs w ⊆ fs w')
  ∧ (∀ err, resolve (fs w) (wd w) path = inl err →
       ∃ w', cd path false me w = (Raise (Exn (OSError err) None), w')
             ∧ wd w' = wd w ∧ fs w' = fs w)
  ∧ (∀ e w', pushd path create (mret tt) me w = (Raise e, w') →
       wd w' = wd w ∧ fs w ⊆ fs w'
       ∧ ∀ A (block : M A), pushd path create block me w = (Raise e, w'))
  ∧ (∀ A (block : M A),
       lock_available me (PUSHD_LOCK_state w) = true →
       is_dir (fs w) (wd w) = true →
       is_dir (fs w) (abspath_location (wd w) path) = false →
       ∃ err w', pushd path false block me w
                 = (Raise (Exn (OSError err) None), w')
                 ∧ wd w' = wd w ∧ fs w' = fs w).
Proof.
  split; [|split; [|split; [|split]]].
  - intros e w' H. by apply cd_Raise_inv in H as [? _].
  - intros e w' H. unfold cd. unfold_M. rewrite H. split; [done|].
    apply os_makedirs_inv in H as (_ & t & -> & Hsub & _). done.
  - intros err H. unfold cd, os_chdir, logger_debug. unfold_M. simpl.
    rewrite H. by eexists.
  - intros e w' H.
    destruct (pushd_enter path create me w) as [[fr|e0|] w1] eqn:He.
    + by rewrite (pushd_looking unit path create (mret tt) me w fr w1 tt He)
        in H.
    + rewrite pushd_unfold, He in H. injection H as <- <-.
      destruct (pushd_enter_Raise_inv _ _ _ _ _ _ He) as (? & ? & _).
      split; [done|]. split; [done|]. intros A block.
      by rewrite pushd_unfold, He.
    + by rewrite pushd_unfold, He in H.
  - intros A block Hl Hd Hmiss. rewrite pushd_unfold.
    unfold pushd_enter. unfold_M. rewrite (RLock_acquire_available _ _ Hl).
    rewrite os_getcwd_Ok by done. rewrite os_path_abspath_Ok by done.
    unfold logger_debug. simpl.
    match goal with |- context [os_chdir ?p me ?w0] =>
      destruct (os_chdir_location_gone (abspath_location (wd w) path) me w0 Hmiss)
        as [err ->]
    end.
    rewrite RLock_release_owner by (simpl; apply owner_acquired).
    by eexists _, _.
Qed.

Lemma cd_pushd_fail_atomically_witness :
  (∃ w', cd (rel [Name "missing"; Name "nested"; Name "dir"]) false 0 Demo.world
         = (Raise (Exn (OSError ENOENT) None), w')
         ∧ wd w' = wd Demo.world ∧ fs w' = fs Demo.world)
  ∧ (∃ err w', pushd (rel [Name "missing"]) false cwd 0 Demo.world
               = (Raise (Exn (OSError err) None), w')
               ∧ wd w' = wd Demo.world ∧ fs w' = fs Demo.world)
  ∧ wd (cd (rel [Name "notes.txt"; Name "x"]) true 0 Demo.world).2
    = wd Demo.world
  ∧ (let path := rel [Name "d1"; Up; Name "notes.txt"] in
     cd path true 0 Demo.world
     = (Raise (Exn (OSError EEXIST) None), (os_makedirs path 0 Demo.world).2)
     ∧ wd (os_makedirs path 0 Demo.world).2 = wd Demo.world
     ∧ fs (os_makedirs path 0 Demo.world).2 !! ["home"; "u"; "d1"]
       = Some Dir)
  ∧ (let path := rel [Name "notes.txt"; Name "x"] in
     wd (pushd path true (mret tt) 0 Demo.world).2 = wd Demo.world
     ∧ pushd path true cwd 0 Demo.world
       = (Raise (Exn (OSError ENOTDIR) None),
          (pushd path true (mret tt) 0 Demo.world).2)).
Proof.
  destruct (cd_pushd_fail_atomically
              (rel [Name "missing"; Name "nested"; Name "dir"]) false 0 Demo.world)
    as (_ & _ & H3 & _).
  destruct (cd_pushd_fail_atomically (rel [Name "missing"]) false 0 Demo.world)
    as (_ & _ & _ & _ & H5).
  destruct (cd_pushd_fail_atomically
              (rel [Name "notes.txt"; Name "x"]) true 0 Demo.world)
    as (H1 & _ & _ & H4 & _).
  destruct (cd_pushd_fail_atomically
              (rel [Name "d1"; Up; Name "notes.txt"]) true 0 Demo.world)
    as (_ & H2 & _).
  split; [|split; [|split; [|split]]].
  - apply H3. vm_compute. reflexivity.
  - apply H5; vm_compute; reflexivity.
  - eapply H1. vm_compute. reflexivity.
  - cbv zeta.
    assert (os_makedirs (rel [Name "d1"; Up; Name "notes.txt"]) 0 Demo.world
            = (Raise (Exn (OSError EEXIST) None),
               (os_makedirs (rel [Name "d1"; Up; Name "notes.txt"])
                  0 Demo.world).2)) as Hm by (vm_compute; reflexivity).
    destruct (H2 _ _ Hm) as (Hcd & Hwd & _).
    split; [exact Hcd|]. split; [exact Hwd|]. vm_compute. reflexivity.
  - cbv zeta.
    assert (pushd (rel [Name "notes.txt"; Name "x"]) true (mret tt)
              0 Demo.world
            = (Raise (Exn (OSError ENOTDIR) None),
               (pushd (rel [Name "notes.txt"; Name "x"]) true (mret tt)
                  0 Demo.world).2)) as Hp by (vm_compute; reflexivity).
    destruct (H4 _ _ Hp) as (Hwd & _ & Hany).
    split; [exact Hwd|]. apply Hany.
Defined.

(** C2, as the code has it: the [finally] clause runs when the block
    raises, so the restoration is attempted.  When it succeeds the failure
    of the block goes on to the caller.  When it fails, it is the failure
    of the restoration that goes on to the caller, carrying the failure of
    the block as its context; the log has the one record written before the
    attempt and nothing about the failure. *)
Theorem pushd_failing_block A path create (block : M A) me w fr w1 e w2 :
  pushd_enter path create me w = (Ok fr, w1) →
  block me w1 = (Raise e, w2) →
  PUSHD_LOCK_state w2 = PUSHD_LOCK_state w1 →
  let w3 := add_log (mkLog "pushd <- %s" (entered fr)) w2 in
  let l := released me (PUSHD_LOCK_state w1) in
  if is_dir (fs w2) (wd w)
  then pushd path create block me w
       = (Raise e, set_lock l (set_wd (wd w) w3))
  else ∃ err,
       pushd path create block me w
       = (Raise (Exn (OSError err) (Some e)), set_lock l w3).
Proof.
  intros He Hb Hlk w3 l.
  destruct (pushd_enter_Ok_inv _ _ _ _ _ _ He)
    as (_ & _ & Hfr & _ & _ & _ & _ & Hlock & _).
  assert (owner (PUSHD_LOCK_state w2) = Some me) as Ho.
  { by rewrite Hlk, Hlock, owner_acquired. }
  rewrite pushd_unfold, He. subst w3 l. rewrite <- Hlk.
  assert (entered fr = of_location (abspath_location (wd w) path)) as ->
    by by rewrite Hfr.
  destruct (is_dir (fs w2) (wd w)) eqn:Hd.
  - by apply (scope_exit_restored A block fr me w1 (Raise e) w2 (wd w)).
  - by apply (scope_exit_stranded A block fr me w1 (Raise e) w2 (wd w)).
Qed.

Lemma pushd_failing_block_witness :
  ∃ err w',
    pushd (abs [Name "home"; Name "u"]) false Demo.saw_off 0 Demo.scratch
    = (Raise (Exn (OSError err) (Some (Exn (Failure "boom") None))), w').
Proof.
  eassert (pushd_enter (abs [Name "home"; Name "u"]) false 0 Demo.scratch = _)
    as Hent by (vm_compute; reflexivity).
  eassert (Demo.saw_off 0
             (pushd_enter (abs [Name "home"; Name "u"]) false 0 Demo.scratch).2
           = _) as Hblk by (vm_compute; reflexivity).
  pose proof (pushd_failing_block unit (abs [Name "home"; Name "u"]) false
                Demo.saw_off 0 Demo.scratch _ _ _ _ Hent Hblk eq_refl) as H.
  cbv zeta in H.
  match type of H with
  | (if ?c then _ else _) =>
      assert (c = false) as Hd by (vm_compute; reflexivity); rewrite Hd in H
  end.
  destruct H as [err H]. exists err. eexists. exact H.
Defined.

(** C2 as stated fails: the block fails with ["boom"] after removing the
    directory the scope was entered from; the caller gets the
    [FileNotFoundError] of the restoration, not ["boom"], and the log has
    no record of a failure. *)
Lemma pushd_restore_failure_replaces_original :
  let r := pushd (abs [Name "home"; Name "u"]) false Demo.saw_off
             0 Demo.scratch in
  r.1 = Raise (Exn (OSError ENOENT) (Some (Exn (Failure "boom") None)))
  ∧ r.1 ≠ Raise (Exn (Failure "boom") None)
  ∧ debug_log r.2
    = [mkLog "pushd -> %s" (of_location ["home"; "u"]);
       mkLog "pushd <- %s" (of_location ["home"; "u"])]
  ∧ wd r.2 = ["home"; "u"].
Proof. vm_compute. split; [reflexivity|]. split; [discriminate|]. split; reflexivity. Qed.

Lemma is_dir_take t d k : is_dir t d = true → is_dir t (take k d) = true.
Proof.
  induction d as [|n d IH] using rev_ind; [by destruct k|].
  intros H. destruct (decide (k ≤ length d)) as [Hk|Hk].
  - rewrite take_app_le by done. apply IH.
    rewrite is_dir_snoc in H. by apply andb_prop in H as [? _].
  - rewrite take_ge; [done|]. rewrite length_app. simpl. lia.
Qed.

Lemma resolve_location t c p d :
  resolve t c p = inr d →
  d = abspath_location c p ∧ (is_dir t c = true → is_dir t d = true).
Proof.
  unfold resolve, start_of, abspath_location.
  destruct (absolute p).
  - intros H. split; [by eapply walk_norm_location|].
    intros _. eapply walk_is_dir; [|exact H]. done.
  - destruct (is_nil (segments p)); [done|].
    intros H. split; [by eapply walk_norm_location|].
    intros Hc. eapply walk_is_dir; [|exact H]. done.
Qed.

Lemma released_acquired_held me l :
  owner l = Some me → count l ≠ 0 → released me (acquired me l) = l.
Proof.
  unfold released, acquired. intros Ho Hc. rewrite Ho. simpl.
  replace (count l + 1 - 1) with (count l) by lia.
  destruct l as [o [|n]]; simpl in *; [done|]. by subst.
Qed.

Lemma count_acquired me l : count (acquired me l) ≠ 0.
Proof. unfold acquired. destruct (owner l); simpl; lia. Qed.

(** C8: [pushd path] with [create] set, where nothing but directories is
    in the way.  The scope is entered; the block finds the directory and
    the missing ones above it made, and the absolute form of [path] as the
    working directory, which is what [cwd()] gives there; after the scope
    the tree is the one the block saw (the new directory stays) and the
    working directory is the old one. *)
Theorem pushd_create_makes_and_keeps path me w :
  let target := abspath_location (wd w) path in
  lock_available me (PUSHD_LOCK_state w) = true →
  is_dir (fs w) (wd w) = true →
  file_in_the_way (fs w) target = false →
  ∃ inside after,
    pushd path true current_world me w = (Ok inside, after)
    ∧ pushd path true cwd me w = (Ok (of_location target), after)
    ∧ os_path_abspath path me w = (Ok (of_location target), w)
    ∧ wd inside = target
    ∧ fs w ⊆ fs inside
    ∧ (∀ k, is_dir (fs inside) (take k target) = true)
    ∧ fs after = fs inside
    ∧ is_dir (fs after) target = true
    ∧ wd after = wd w
    ∧ cwd me after = (Ok (of_location (wd w)), after).
Proof.
  intros target Hl Hd Hf.
  destruct (walk_create_names (fs w) [] target) as [t Ht]; [done| |].
  { intros k. simpl. by apply file_in_the_way_false. }
  simpl in Ht.
  assert (is_dir t target = true) as Hdt.
  { unfold is_dir. by rewrite (walk_create_walk _ _ _ _ _ Ht). }
  pose proof (walk_create_subseteq (fs w) [] (Name <$> target)) as Hsub.
  rewrite Ht in Hsub. simpl in Hsub.
  pose proof (pushd_enter_Ok path true me w t Hl Hd (ex_intro _ _ Ht) Hdt) as He.
  fold target in He.
  eexists _, _.
  split; [by apply (pushd_looking _ path true current_world me w _ _ _ He)|].
  split.
  { apply (pushd_looking _ path true cwd me w _ _ _ He). by apply cwd_Ok. }
  split; [by apply os_path_abspath_Ok|]. simpl.
  split; [done|]. split; [done|]. split; [intros k; by apply is_dir_take|].
  split; [done|]. split; [done|]. split; [done|].
  rewrite cwd_Ok; [done|]. simpl. by eapply is_dir_weaken.
Qed.

Lemma pushd_create_makes_and_keeps_witness :
  ∃ inside after,
    pushd (rel [Name "new_dir"; Name "sub"]) true current_world 0 Demo.world
    = (Ok inside, after)
    ∧ is_dir (fs Demo.world) ["home"; "u"; "new_dir"] = false
    ∧ pushd (rel [Name "new_dir"; Name "sub"]) true cwd 0 Demo.world
      = (Ok (of_location ["home"; "u"; "new_dir"; "sub"]), after)
    ∧ is_dir (fs inside) ["home"; "u"; "new_dir"] = true
    ∧ is_dir (fs after) ["home"; "u"; "new_dir"; "sub"] = true
    ∧ cwd 0 after = (Ok (of_location ["home"; "u"]), after).
Proof.
  destruct (pushd_create_makes_and_keeps
              (rel [Name "new_dir"; Name "sub"]) 0 Demo.world)
    as (inside & after & Hw & Hin & _ & _ & _ & Hup & _ & Hd & _ & Hout);
    [vm_compute; reflexivity..|].
  exists inside, after. split; [exact Hw|].
  split; [vm_compute; reflexivity|]. split; [exact Hin|].
  split; [exact (Hup 3)|]. split; [exact Hd|exact Hout].
Defined.

(** C9, as the code has it: on a path that leads to a directory already,
    the creation changes nothing.  [cd] with [create] set succeeds, and
    the working directory becomes that directory.  [pushd] with [create]
    set needs the current directory as well, which it reads first: when
    it is there, the block runs in the directory of the path, and after
    the scope tree and working directory are as before; when it has been
    removed, the call raises [FileNotFoundError] without running the
    block, whatever the path. *)
Theorem create_on_existing_directory path me w d :
  resolve (fs w) (wd w) path = inr d →
  cd path true me w = (Ok tt, set_wd d (add_log (mkLog "cd -> %s" path) w))
  ∧ (lock_available me (PUSHD_LOCK_state w) = true →
     if is_dir (fs w) (wd w)
     then ∃ inside after,
            pushd path true current_world me w = (Ok inside, after)
            ∧ wd inside = d ∧ fs inside = fs w
            ∧ wd after = wd w ∧ fs after = fs w
     else ∀ A (block : M A),
            ∃ w', pushd path true block me w
                  = (Raise (Exn (OSError ENOENT) None), w')
                  ∧ wd w' = wd w ∧ fs w' = fs w).
Proof.
  intros Hres. split.
  - unfold cd. unfold_M. rewrite (os_makedirs_existing _ _ _ _ Hres).
    unfold logger_debug, os_chdir. simpl. by rewrite Hres.
  - intros Hl. destruct (is_dir (fs w) (wd w)) eqn:Hd.
    + destruct (resolve_location _ _ _ _ Hres) as [Hloc Hdd].
      specialize (Hdd Hd).
      assert (walk_create (fs w) [] (Name <$> abspath_location (wd w) path)
              = (fs w, inr d)) as Hw.
      { rewrite <- Hloc. apply walk_create_noop. by apply is_dir_walk. }
      pose proof (pushd_enter_Ok path true me w (fs w) Hl Hd
                    (ex_intro _ _ Hw)) as He.
      rewrite <- Hloc in He. specialize (He Hdd).
      eexists _, _.
      split; [by apply (pushd_looking _ path true current_world me w _ _ _ He)|].
      done.
    + intros A block. rewrite pushd_unfold. unfold pushd_enter. unfold_M.
      rewrite (RLock_acquire_available _ _ Hl).
      unfold os_getcwd. simpl. rewrite Hd.
      rewrite RLock_release_owner by (simpl; apply owner_acquired).
      by eexists.
Qed.

Lemma create_on_existing_directory_witness :
  (cd (rel [Name "recept"; Up; Name "recept"; Name "docs"]) true 0 Demo.world).1
  = Ok tt
  ∧ (∃ inside after,
       pushd (rel [Name "recept"]) true current_world 0 Demo.world
       = (Ok inside, after)
       ∧ wd inside = ["home"; "u"; "recept"] ∧ wd after = ["home"; "u"])
  ∧ (∃ w', pushd (abs [Name "tmp"]) true cwd 0 Demo.stranded
           = (Raise (Exn (OSError ENOENT) None), w')
           ∧ wd w' = wd Demo.stranded).
Proof.
  split; [|split].
  - eapply (eq_ind_r (λ r, r.1 = Ok tt)); [|
      eapply (create_on_existing_directory
                (rel [Name "recept"; Up; Name "recept"; Name "docs"]) 0
                Demo.world); vm_compute; reflexivity].
    reflexivity.
  - destruct (create_on_existing_directory (rel [Name "recept"]) 0 Demo.world
                ["home"; "u"; "recept"]) as [_ H]; [vm_compute; reflexivity|].
    specialize (H eq_refl).
    assert (is_dir (fs Demo.world) (wd Demo.world) = true) as Hd
      by (vm_compute; reflexivity).
    rewrite Hd in H.
    destruct H as (inside & after & Hp & Hin & _ & Hout & _).
    by exists inside, after.
  - destruct (create_on_existing_directory (abs [Name "tmp"]) 0 Demo.stranded
                ["tmp"]) as [_ H]; [vm_compute; reflexivity|].
    specialize (H eq_refl).
    assert (is_dir (fs Demo.stranded) (wd Demo.stranded) = false) as Hd
      by (vm_compute; reflexivity).
    rewrite Hd in H.
    destruct (H Path cwd) as (w' & Hp & Hwd & _). by exists w'.
Defined.

(** C9 as stated fails: [/tmp] is a directory, and from a current
    directory that has been removed [cd("/tmp", create=True)] succeeds
    while [pushd("/tmp", create=True)] raises [FileNotFoundError]. *)
Lemma pushd_existing_directory_fails :
  is_dir (fs Demo.stranded) ["tmp"] = true
  ∧ (cd (abs [Name "tmp"]) true 0 Demo.stranded).1 = Ok tt
  ∧ (pushd (abs [Name "tmp"]) true (mret tt) 0 Demo.stranded).1
    = Raise (Exn (OSError ENOENT) None).
Proof. vm_compute. split; [reflexivity|]. split; reflexivity. Qed.

(** C4: two scopes, one inside the other, give the directories
    [start], [A], [A/B], [A], [start] in this order, and each scope has
    recorded the directory it was entered from. *)
Theorem nested_pushd_lifo A B createA createB me w frA w1 frB w2 :
  pushd_enter A createA me w = (Ok frA, w1) →
  pushd_enter B createB me w1 = (Ok frB, w2) →
  let start := wd w in
  let a := abspath_location start A in
  let ab := abspath_location a B in
  (nested_scopes A B createA createB me w).1
  = Ok (of_location <$> [start; a; ab; a; start])
  ∧ restore_point frA = of_location start
  ∧ restore_point frB = of_location a
  ∧ (absolute B = false → ab = abspath_location start (os_path_join A B)).
Proof.
  intros HA HB start a ab.
  destruct (pushd_enter_Ok_inv _ _ _ _ _ _ HA)
    as (HlA & HdA & HfrA & HsubA & _ & HtA & HwA & HlockA & _).
  destruct (pushd_enter_Ok_inv _ _ _ _ _ _ HB)
    as (HlB & HdB & HfrB & HsubB & _ & HtB & HwB & HlockB & _).
  fold start in HfrA, HwA. fold a in HwA, HtA.
  rewrite HwA in HfrB, HwB, HtB. fold ab in HwB, HtB.
  split; [|split; [by rewrite HfrA|split; [by rewrite HfrB|]]].
  - (* the inner scope, seen from inside the outer one *)
    assert (pushd B createB cwd me w1
            = (Ok (of_location ab),
               set_lock (released me (PUSHD_LOCK_state w2))
                 (set_wd a (add_log (mkLog "pushd <- %s" (entered frB)) w2))))
      as Hinner.
    { rewrite <- HwA.
      apply (pushd_scope Path B createB cwd me w1 frB w2); try done.
      - rewrite cwd_Ok; [by rewrite HwB|]. by rewrite HwB.
      - by eapply is_dir_weaken. }
    set (w3 := set_lock _ _) in Hinner.
    assert (is_dir (fs w2) a = true) as Ha2 by by eapply is_dir_weaken.
    assert ((a ← cwd; ab ← pushd B createB cwd; a' ← cwd; mret [a; ab; a'])
              me w1
            = (Ok (of_location <$> [a; ab; a]), w3)) as Hblock.
    { unfold_M. rewrite cwd_Ok by by rewrite HwA.
      rewrite Hinner. rewrite cwd_Ok by done. by rewrite HwA. }
    unfold nested_scopes. unfold_M. rewrite cwd_Ok by done.
    erewrite (pushd_scope _ A createA _ me w frA w1 _ w3 HA Hblock); [|done|..].
    + rewrite cwd_Ok; [done|]. simpl. eapply is_dir_weaken; [|exact HdA].
      by etrans.
    + simpl. eapply is_dir_weaken; [|exact HdA]. by etrans.
    + simpl. rewrite HlockB. apply released_acquired_held.
      * by rewrite HlockA, owner_acquired.
      * rewrite HlockA. apply count_acquired.
  - intros HrelB. unfold ab, a, abspath_location, os_path_join.
    rewrite HrelB. destruct (absolute A); simpl; by rewrite norm_location_app.
Qed.

Lemma nested_pushd_lifo_witness :
  (nested_scopes (rel [Name "recept"]) (rel [Name "docs"]) false false
     0 Demo.world).1
  = Ok (of_location <$> [ ["home"; "u"];
                          ["home"; "u"; "recept"];
                          ["home"; "u"; "recept"; "docs"];
                          ["home"; "u"; "recept"];
                          ["home"; "u"] ]).
Proof.
  eassert (pushd_enter (rel [Name "recept"]) false 0 Demo.world = _)
    as HA by (vm_compute; reflexivity).
  eassert (pushd_enter (rel [Name "docs"]) false 0
             (pushd_enter (rel [Name "recept"]) false 0 Demo.world).2 = _)
    as HB by (vm_compute; reflexivity).
  destruct (nested_pushd_lifo (rel [Name "recept"]) (rel [Name "docs"])
              false false 0 Demo.world _ _ _ _ HA HB) as [H _].
  exact H.
Defined.

(** ** Threads and the lock *)

Lemma pushd_enter_blocked path create me w :
  lock_available me (PUSHD_LOCK_state w) = false →
  pushd_enter path create me w = (Blocks, w).
Proof.
  intros Hl. unfold pushd_enter. unfold_M.
  by rewrite (RLock_acquire_held _ _ Hl).
Qed.

Lemma pushd_blocked A path create (block : M A) me w :
  lock_available me (PUSHD_LOCK_state w) = false →
  pushd path create block me w = (Blocks, w).
Proof. intros Hl. by rewrite pushd_unfold, pushd_enter_blocked. Qed.

Lemma pushd_enter_Raise_lock path create me w e w' :
  pushd_enter path create me w = (Raise e, w') →
  PUSHD_LOCK_state w' = released me (acquired me (PUSHD_LOCK_state w)).
Proof.
  intros H.
  destruct (lock_available me (PUSHD_LOCK_state w)) eqn:Hl.
  2:{ by rewrite (pushd_enter_blocked _ _ _ _ Hl) in H. }
  unfold pushd_enter in H. unfold_M. rewrite (RLock_acquire_available _ _ Hl) in H.
  set (l := acquired me (PUSHD_LOCK_state w)) in *.
  assert (∀ w0 e0, PUSHD_LOCK_state w0 = l →
            (let (o, w2) := RLock_release PUSHD_LOCK me w0 in
             match o with
             | Ok _ => (Raise e0, w2)
             | Raise e' => (Raise (raised_during e0 e'), w2)
             | Blocks => (@Blocks Frame, w2)
             end) = (Raise e, w') →
            PUSHD_LOCK_state w' = released me l) as Hrel.
  { intros w0 e0 Hw0. rewrite RLock_release_owner
      by (rewrite Hw0; apply owner_acquired).
    intros [= _ <-]. simpl. by rewrite Hw0. }
  unfold os_getcwd in H. simpl in H.
  destruct (is_dir (fs w) (wd w)) eqn:Hd; [|by eapply Hrel in H].
  rewrite (os_path_abspath_Ok path me (set_lock l w) Hd) in H. simpl in H.
  destruct create.
  - unfold os_makedirs in H. simpl in H.
    destruct (walk_create _ _ _) as [t [e0|d]]; [by eapply Hrel in H|].
    unfold os_chdir, logger_debug in H. simpl in H.
    destruct (resolve _ _ _); [by eapply Hrel in H|done].
  - unfold os_chdir, logger_debug in H. simpl in H.
    destruct (resolve _ _ _); [by eapply Hrel in H|done].
Qed.

Lemma os_chdir_lock path me w :
  (os_chdir path me w).1 ≠ Blocks
  ∧ PUSHD_LOCK_state (os_chdir path me w).2 = PUSHD_LOCK_state w.
Proof. unfold os_chdir. by destruct (resolve _ _ _). Qed.

Lemma cd_lock path create me w :
  (cd path create me w).1 ≠ Blocks
  ∧ PUSHD_LOCK_state (cd path create me w).2 = PUSHD_LOCK_state w.
Proof.
  unfold cd, os_makedirs, os_chdir, logger_debug. unfold_M.
  destruct create; simpl.
  - destruct (start_of _ _); [done|].
    destruct (walk_create _ _ _) as [t []]; [done|]. simpl.
    by destruct (resolve _ _ _).
  - by destruct (resolve _ _ _).
Qed.

Lemma pushd_exit_owner fr me w :
  owner (PUSHD_LOCK_state w) = Some me →
  (pushd_exit fr me w).1 ≠ Blocks
  ∧ PUSHD_LOCK_state (pushd_exit fr me w).2
    = released me (PUSHD_LOCK_state w).
Proof.
  intros Ho. unfold pushd_exit, pushd_restore, try_finally, logger_debug.
  unfold_M. simpl.
  destruct (os_chdir_lock (restore_point fr) me
              (add_log (mkLog "pushd <- %s" (entered fr)) w)) as [Hn Hl].
  destruct (os_chdir _ _ _) as [[[]| |] w1]; [| |done]; simpl in Hl.
  all: rewrite RLock_release_owner by by rewrite Hl.
  all: by rewrite Hl.
Qed.

(** The scope in terms of its two halves: entry, block, exit. *)
Lemma pushd_enter_exit A path create (block : M A) me w fr w1 r w2 :
  pushd_enter path create me w = (Ok fr, w1) →
  block me w1 = (r, w2) →
  owner (PUSHD_LOCK_state w2) = Some me →
  pushd path create block me w = try_finally block (pushd_exit fr) me w1.
Proof.
  intros He Hb Ho. rewrite pushd_unfold, He.
  unfold pushd_exit, try_finally at 1 2 3 4. rewrite Hb.
  destruct (os_chdir_lock (restore_point fr) me
              (add_log (mkLog "pushd <- %s" (entered fr)) w2)) as [Hn Hl].
  unfold pushd_restore, logger_debug. unfold_M. simpl.
  destruct (os_chdir _ _ _) as [[[]|e'|] w3]; [| |done]; simpl in Hl.
  all: destruct r as [a|e|]; try done.
  all: by rewrite RLock_release_owner by by rewrite Hl.
Qed.


Lemma pushd_enter_available path create me w :
  lock_available me (PUSHD_LOCK_state w) = true →
  (pushd_enter path create me w).1 ≠ Blocks.
Proof.
  intros Hl.
  unfold pushd_enter. unfold_M. rewrite (RLock_acquire_available _ _ Hl).
  set (l := acquired me (PUSHD_LOCK_state w)) in *.
  assert (∀ w0 e0, PUSHD_LOCK_state w0 = l →
            (let (o, w2) := RLock_release PUSHD_LOCK me w0 in
             match o with
             | Ok _ => (Raise e0, w2)
             | Raise e' => (Raise (raised_during e0 e'), w2)
             | Blocks => (@Blocks Frame, w2)
             end).1 ≠ Blocks) as Hrel.
  { intros w0 e0 Hw0. by rewrite RLock_release_owner
      by (rewrite Hw0; apply owner_acquired). }
  unfold os_getcwd. simpl.
  destruct (is_dir (fs w) (wd w)) eqn:Hd; [|by apply Hrel].
  rewrite (os_path_abspath_Ok path me (set_lock l w) Hd). simpl.
  destruct create.
  - unfold os_makedirs. simpl.
    destruct (walk_create _ _ _) as [t [e0|d]]; [by apply Hrel|].
    unfold os_chdir, logger_debug. simpl.
    destruct (resolve _ _ _); [by apply Hrel|done].
  - unfold os_chdir, logger_debug. simpl.
    destruct (resolve _ _ _); [by apply Hrel|done].
Qed.


Lemma lock_well_formed_available me l :
  lock_well_formed me l = true → lock_available me l = true.
Proof.
  unfold lock_well_formed, lock_available. destruct (owner l); [|done].
  by intros [? _]%andb_prop.
Qed.

Lemma released_acquired_well_formed me l :
  lock_well_formed me l = true → released me (acquired me l) = l.
Proof.
  unfold lock_well_formed. destruct l as [[o|] c]; simpl.
  - intros [->%bool_decide_eq_true Hc%negb_true_iff]%andb_prop.
    apply bool_decide_eq_false in Hc. by apply released_acquired_held.
  - by intros ->%bool_decide_eq_true.
Qed.


Lemma lock_well_formed_acquired me l :
  lock_well_formed me l = true →
  acquired me l = mkRLock (Some me) (count l + 1)
  ∧ lock_well_formed me (acquired me l) = true.
Proof.
  unfold lock_well_formed, acquired. destruct l as [[o|] c]; simpl.
  - intros [->%bool_decide_eq_true _]%andb_prop. split; [done|].
    rewrite bool_decide_eq_true_2 by done. simpl.
    apply negb_true_iff, bool_decide_eq_false. lia.
  - intros ->%bool_decide_eq_true. split; [done|].
    by rewrite bool_decide_eq_true_2 by done.
Qed.

(** When a call of [pushd] blocks, the lock belongs to another thread and
    nothing has happened, or the block of the scope is what blocks. *)
Lemma pushd_Blocks_inv A path create (block : M A) me w w' :
  pushd path create block me w = (Blocks, w') →
  (lock_available me (PUSHD_LOCK_state w) = false ∧ w' = w)
  ∨ (∃ fr w1, pushd_enter path create me w = (Ok fr, w1)
              ∧ block me w1 = (Blocks, w')).
Proof.
  destruct (lock_available me (PUSHD_LOCK_state w)) eqn:Hl.
  2:{ rewrite pushd_blocked by done. intros [= <-]. by left. }
  pose proof (pushd_enter_available path create me w Hl) as Hnb.
  rewrite pushd_unfold.
  destruct (pushd_enter path create me w) as [[fr|e|] w1] eqn:He;
    [|done..].
  intros H. right. exists fr, w1. split; [done|].
  unfold try_finally, pushd_restore, logger_debug in H. unfold_M.
  destruct (block me w1) as [[a|e|] w2]; [| |done].
  all: simpl in H.
  all: destruct (os_chdir_lock (restore_point fr) me
                   (add_log (mkLog "pushd <- %s" (entered fr)) w2))
         as [Hn _].
  all: destruct (os_chdir _ _ _) as [[[]|e'|] w3]; [| |done].
  all: pose proof (RLock_release_never_blocks me w3) as Hr.
  all: by destruct (RLock_release PUSHD_LOCK me w3) as [[[]|e''|] w4].
Qed.

(** The lock inside a scope and after it. *)
Lemma pushd_current_world_lock path create me w inside after :
  lock_well_formed me (PUSHD_LOCK_state w) = true →
  pushd path create current_world me w = (Ok inside, after) →
  PUSHD_LOCK_state inside = mkRLock (Some me) (count (PUSHD_LOCK_state w) + 1)
  ∧ lock_well_formed me (PUSHD_LOCK_state inside) = true
  ∧ PUSHD_LOCK_state after = PUSHD_LOCK_state w.
Proof.
  intros Hwf (fr & w1 & w2 & He & Hb & _ & _ & ->)%pushd_Ok_inv.
  injection Hb as -> ->.
  destruct (pushd_enter_Ok_inv _ _ _ _ _ _ He)
    as (_ & _ & _ & _ & _ & _ & _ & Hlock & _).
  destruct (lock_well_formed_acquired _ _ Hwf) as [Hacq Hwf'].
  rewrite Hlock. split; [done|]. split; [done|]. simpl.
  by apply released_acquired_well_formed.
Qed.

(** What makes a scope open: the lock can be taken, the current directory
    is there, and the target is a directory or, with [create], no regular
    file is in the way. *)
Lemma pushd_enter_succeeds path (create : bool) me w :
  let target := abspath_location (wd w) path in
  lock_available me (PUSHD_LOCK_state w) = true →
  is_dir (fs w) (wd w) = true →
  (if create then file_in_the_way (fs w) target = false
   else is_dir (fs w) target = true) →
  ∃ fr w1, pushd_enter path create me w = (Ok fr, w1).
Proof.
  intros target Hl Hd Ht. destruct create.
  - destruct (walk_create_names (fs w) [] target) as [t Hc]; [done| |].
    { intros k. simpl. by apply file_in_the_way_false. }
    simpl in Hc.
    assert (is_dir t target = true) as Hdt.
    { unfold is_dir. by rewrite (walk_create_walk _ _ _ _ _ Hc). }
    eexists _, _.
    exact (pushd_enter_Ok path true me w t Hl Hd (ex_intro _ _ Hc) Hdt).
  - eexists _, _. by apply (pushd_enter_Ok path false me w (fs w)).
Qed.

(** C7: the one lock of [pushd], seen from inside a scope.  The scope is
    entered from a lock that is free (the outermost scope of a thread) or
    the thread's own (a scope inside its scopes), where the current
    directory is there and the target is a directory or can be made.  The
    call does not block.  Inside, the lock is the thread's, one level up;
    after the scope it is as it was before, so it is free only after the
    outermost scope.  Inside, a further [pushd] of the thread does not
    wait for the lock (it blocks only when its block does) and goes
    another level up; a [pushd] of any other thread blocks, whatever its
    path and block, and the world, working directory included, stays as
    it is.  After the scope another thread still blocks unless the scope
    was the outermost one; then it does not wait either. *)
Theorem pushd_lock_serialises path (create : bool) me w :
  let target := abspath_location (wd w) path in
  lock_well_formed me (PUSHD_LOCK_state w) = true →
  is_dir (fs w) (wd w) = true →
  (if create then file_in_the_way (fs w) target = false
   else is_dir (fs w) target = true) →
  ∃ inside after,
    pushd path create current_world me w = (Ok inside, after)
    ∧ PUSHD_LOCK_state inside
      = mkRLock (Some me) (count (PUSHD_LOCK_state w) + 1)
    ∧ PUSHD_LOCK_state after = PUSHD_LOCK_state w
    ∧ (∀ path' create' A (block : M A) w',
         pushd path' create' block me inside = (Blocks, w') →
         ∃ w1, block me w1 = (Blocks, w'))
    ∧ (∀ path' create' inner after',
         pushd path' create' current_world me inside = (Ok inner, after') →
         PUSHD_LOCK_state inner
         = mkRLock (Some me) (count (PUSHD_LOCK_state w) + 2)
         ∧ PUSHD_LOCK_state after' = PUSHD_LOCK_state inside)
    ∧ (∀ other path' create' A (block : M A),
         other ≠ me →
         pushd path' create' block other inside = (Blocks, inside)
         ∧ pushd path create (as_thread other (pushd path' create' block))
             me w
           = (Ok (Blocks, inside), after))
    ∧ (∀ other path' create' A (block : M A),
         other ≠ me →
         match owner (PUSHD_LOCK_state w) with
         | None =>
             ∀ w', pushd path' create' block other after = (Blocks, w') →
                   ∃ w1, block other w1 = (Blocks, w')
         | Some _ =>
             pushd path' create' block other after = (Blocks, after)
         end).
Proof.
  intros target Hwf Hd Ht.
  destruct (pushd_enter_succeeds path create me w
              (lock_well_formed_available _ _ Hwf) Hd Ht) as (fr & inside & He).
  pose proof (pushd_looking _ path create current_world me w fr inside inside
                He eq_refl) as Hp.
  set (after := set_lock _ _) in Hp. exists inside, after.
  destruct (pushd_current_world_lock _ _ _ _ _ _ Hwf Hp)
    as (Hin & Hwf' & Haft).
  assert (∀ other, other ≠ me →
            lock_available other (PUSHD_LOCK_state inside) = false) as Hno.
  { intros other Hne. unfold lock_available. rewrite Hin. simpl.
    by apply bool_decide_eq_false. }
  split; [done|]. split; [done|]. split; [done|]. split; [|split; [|split]].
  - intros path' create' A block w' Hb.
    apply pushd_Blocks_inv in Hb as [[Hl _]|(fr' & w1 & _ & Hb)]; [|eauto].
    by rewrite (lock_well_formed_available _ _ Hwf') in Hl.
  - intros path' create' inner after' Hp'.
    destruct (pushd_current_world_lock _ _ _ _ _ _ Hwf' Hp')
      as (Hin' & _ & Haft').
    split; [|done]. rewrite Hin', Hin. simpl. f_equal. lia.
  - intros other path' create' A block Hne.
    pose proof (pushd_blocked A path' create' block other inside (Hno _ Hne))
      as Hb.
    split; [done|].
    rewrite (pushd_looking _ path create
               (as_thread other (pushd path' create' block)) me w fr inside
               (Blocks, inside) He); [done|].
    unfold as_thread. by rewrite Hb.
  - intros other path' create' A block Hne.
    destruct (owner (PUSHD_LOCK_state w)) as [o|] eqn:Ho.
    + apply pushd_blocked. rewrite Haft.
      unfold lock_well_formed, lock_available in *. rewrite Ho in *.
      apply andb_prop in Hwf as [->%bool_decide_eq_true _].
      by apply bool_decide_eq_false.
    + intros w' Hb.
      apply pushd_Blocks_inv in Hb as [[Hl _]|(fr' & w1 & _ & Hb)]; [|eauto].
      unfold lock_available in Hl. by rewrite Haft, Ho in Hl.
Qed.

Lemma pushd_lock_serialises_witness :
  pushd (rel [Name "recept"]) false current_world 0 Demo.world
  = (Ok Demo.inside, Demo.after)
  ∧ PUSHD_LOCK_state Demo.inside = mkRLock (Some 0) 1
  ∧ PUSHD_LOCK_state Demo.after = unlocked
  ∧ wd Demo.inside = ["home"; "u"; "recept"]
  ∧ pushd (abs [Name "tmp"]) false cwd 2 Demo.inside = (Blocks, Demo.inside)
  ∧ pushd (rel [Name "recept"]) false
      (as_thread 2 (pushd (abs [Name "tmp"]) false cwd)) 0 Demo.world
    = (Ok (Blocks, Demo.inside), Demo.after)
  ∧ (pushd (rel [Name "docs"]) false cwd 0 Demo.inside).1
    = Ok (of_location ["home"; "u"; "recept"; "docs"])
  ∧ (pushd (abs [Name "tmp"]) false cwd 2 Demo.after).1
    = Ok (of_location ["tmp"]).
Proof.
  assert (pushd (rel [Name "recept"]) false current_world 0 Demo.world
          = (Ok Demo.inside, Demo.after)) as Hp by (vm_compute; reflexivity).
  destruct (pushd_lock_serialises (rel [Name "recept"]) false 0 Demo.world)
    as (inside & after & Hp' & Hin & Haft & _ & _ & Hother & _);
    [vm_compute; reflexivity..|].
  rewrite Hp in Hp'. injection Hp' as <- <-.
  destruct (Hother 2 (abs [Name "tmp"]) false Path cwd) as [Hb Hseen]; [lia|].
  split; [exact Hp|]. split; [exact Hin|]. split; [exact Haft|].
  split; [vm_compute; reflexivity|]. split; [exact Hb|].
  split; [exact Hseen|]. split; vm_compute; reflexivity.
Defined.

(** ** The command factory *)

Lemma extract_call_args_empty sys me w :
  extract_call_args sys ∅ me w = (Ok ∅, w).
Proof. unfold extract_call_args. by rewrite map_to_list_empty. Qed.

Lemma extract_call_args_non_empty sys kwargs me w :
  kwargs ≠ ∅ →
  extract_call_args sys kwargs me w
  = match sh_refuses sys kwargs with
    | Some msg => (Raise (Exn (TypeError msg) None), w)
    | None => (Ok kwargs, w)
    end.
Proof.
  intros Hne. unfold extract_call_args.
  destruct (map_to_list kwargs) as [|kv l] eqn:E.
  - by apply map_to_list_empty_iff in E.
  - simpl. by destruct (sh_refuses sys kwargs).
Qed.

Lemma prune_empty sys : prune sys ∅ = ∅.
Proof. unfold prune. apply map_filter_empty. Qed.

Lemma bake_located sys c args kwargs me w :
  kwargs ≠ ∅ →
  bake sys c args kwargs me w
  = match which sys (cmd_path c) with
    | None => (Raise (Exn (CommandNotFound (cmd_path c)) None), w)
    | Some path =>
        match sh_refuses sys kwargs with
        | Some msg => (Raise (Exn (TypeError msg) None), w)
        | None =>
            (Ok (mkCommand path (baked_args c ++ args)
                   (prune sys kwargs ∪ call_args c)), w)
        end
    end.
Proof.
  intros Hne. unfold bake, sh_Command. unfold_M.
  destruct (which sys (cmd_path c)) as [path|]; [|done]. simpl.
  rewrite extract_call_args_non_empty by done.
  by destruct (sh_refuses sys kwargs).
Qed.

Lemma bake_plain sys c args me w :
  bake sys c args ∅ me w
  = match which sys (cmd_path c) with
    | None => (Raise (Exn (CommandNotFound (cmd_path c)) None), w)
    | Some path =>
        (Ok (mkCommand path (baked_args c ++ args) (call_args c)), w)
    end.
Proof.
  unfold bake, sh_Command. unfold_M.
  destruct (which sys (cmd_path c)) as [path|]; [|done]. simpl.
  rewrite extract_call_args_empty, prune_empty.
  by rewrite (left_id_L ∅ (∪)).
Qed.

(** What the [except] clause of [app] makes of an exception. *)
Lemma app_fallback sys name (e : exn) me w :
  try_except (λ _ w0, (Raise e, w0)) is_CommandNotFound
    (λ _, c ← sh_Command sys (sys_executable sys);
          bake sys c ["-c"; fallback_script name] ∅) me w
  = if is_CommandNotFound e
    then (match located sys (sys_executable sys) with
          | Some python =>
              Ok (mkCommand python ["-c"; fallback_script name] ∅)
          | None =>
              Raise (Exn (CommandNotFound
                            (not_found sys (sys_executable sys)))
                       (Some e))
          end, w)
    else (Raise e, w).
Proof.
  unfold try_except. destruct (is_CommandNotFound e); [|done].
  unfold located, not_found, sh_Command. unfold_M.
  destruct (which sys (sys_executable sys)) as [py|] eqn:Hpy; simpl; [|done].
  rewrite bake_plain. simpl. by destruct (which sys py).
Qed.

Lemma app_located sys name args _out _err _tee kwargs me w path :
  located sys name = Some path →
  let passed :=
    <["_out" := _out]> (<["_err" := _err]> (<["_tee" := _tee]> kwargs)) in
  app sys name args _out _err _tee kwargs me w
  = (match sh_refuses sys passed with
     | Some msg => Raise (Exn (TypeError msg) None)
     | None => Ok (mkCommand path args (prune sys passed))
     end, w).
Proof.
  intros Hloc passed.
  assert (passed ≠ ∅) as Hne by apply insert_non_empty.
  unfold located in Hloc. unfold app. fold passed.
  destruct (which sys name) as [p|] eqn:Hn; [|done]. simpl in Hloc.
  unfold try_except, sh_Command. unfold_M. rewrite Hn. simpl.
  rewrite bake_located by done. simpl. rewrite Hloc.
  destruct (sh_refuses sys passed); [done|].
  by rewrite (right_id_L ∅ (∪)).
Qed.

Lemma app_not_located sys name args _out _err _tee kwargs me w :
  located sys name = None →
  app sys name args _out _err _tee kwargs me w
  = (match located sys (sys_executable sys) with
     | Some python => Ok (mkCommand python ["-c"; fallback_script name] ∅)
     | None =>
         Raise (Exn (CommandNotFound (not_found sys (sys_executable sys)))
                  (Some (Exn (CommandNotFound (not_found sys name)) None)))
     end, w).
Proof.
  intros Hloc. unfold located in Hloc. unfold app.
  set (passed := <["_out" := _out]> _).
  assert (passed ≠ ∅) as Hne by apply insert_non_empty.
  destruct (which sys name) as [p|] eqn:Hn; simpl in Hloc.
  - assert (not_found sys name = p) as ->
      by (unfold not_found; by rewrite Hn).
    pose proof (app_fallback sys name (Exn (CommandNotFound p) None) me w)
      as Hfall.
    simpl in Hfall. rewrite <- Hfall.
    unfold try_except, sh_Command. unfold_M. rewrite Hn. simpl.
    rewrite bake_located by done. simpl. by rewrite Hloc.
  - assert (not_found sys name = name) as ->
      by (unfold not_found; by rewrite Hn).
    pose proof (app_fallback sys name (Exn (CommandNotFound name) None) me w)
      as Hfall.
    simpl in Hfall. rewrite <- Hfall.
    unfold try_except, sh_Command. unfold_M. by rewrite Hn.
Qed.

(** C6, as the code has it.  [app] changes nothing, and how it ends is
    settled by three things.  When the executable is located and [sh]
    accepts the special keyword arguments, it returns the command with the
    arguments baked in and, of the special keyword arguments, those that
    differ from their defaults.  When the executable is located and [sh]
    refuses the special keyword arguments, the [TypeError] of [sh] goes to
    the caller: the [except] clause is for [CommandNotFound] only.  When
    the executable is not located, it returns the command that runs the
    interpreter on the script carrying the name, with nothing else baked
    in, if the interpreter is located; if not, it raises the
    [CommandNotFound] of the interpreter, with the first one as context. *)
Theorem app_outcome sys name args _out _err _tee kwargs me w :
  let passed :=
    <["_out" := _out]> (<["_err" := _err]> (<["_tee" := _tee]> kwargs)) in
  app sys name args _out _err _tee kwargs me w
  = (match located sys name with
     | Some path =>
         match sh_refuses sys passed with
         | Some msg => Raise (Exn (TypeError msg) None)
         | None => Ok (mkCommand path args (prune sys passed))
         end
     | None =>
         match located sys (sys_executable sys) with
         | Some python =>
             Ok (mkCommand python ["-c"; fallback_script name] ∅)
         | None =>
             Raise (Exn (CommandNotFound (not_found sys (sys_executable sys)))
                      (Some (Exn (CommandNotFound (not_found sys name))
                               None)))
         end
     end, w).
Proof.
  intros passed. destruct (located sys name) as [path|] eqn:Hloc.
  - by apply app_located.
  - by apply app_not_located.
Qed.

Lemma app_outcome_witness :
  app Demo.system "ls" ["-l"] default_out default_err default_tee
    {["_ok_code" := VCodes [0; 1]%Z]} 0 Demo.world
  = (Ok (mkCommand "/bin/ls" ["-l"]
           (<["_out" := default_out]>
              (<["_err" := default_err]>
                 (<["_tee" := default_tee]>
                    {["_ok_code" := VCodes [0; 1]%Z]})))), Demo.world)
  ∧ app Demo.system Demo.missing ["-l"] default_out default_err default_tee
      {["_ok_code" := VCodes [0; 1]%Z]} 0 Demo.world
    = (Ok (mkCommand Demo.python ["-c"; fallback_script Demo.missing] ∅),
       Demo.world).
Proof.
  rewrite !app_outcome. split.
  - assert (located Demo.system "ls" = Some "/bin/ls") as ->
      by (vm_compute; reflexivity).
    vm_compute. reflexivity.
  - assert (located Demo.system Demo.missing = None) as ->
      by (vm_compute; reflexivity).
    assert (located Demo.system (sys_executable Demo.system)
            = Some Demo.python) as -> by (vm_compute; reflexivity).
    reflexivity.
Defined.

(** C6 as stated fails.  [ls] is installed, and [app("ls",
    _err_to_out=True)] raises the [TypeError] of [sh], which has [_err]
    from [app] already; and where neither the command nor the interpreter
    is located, [app] raises [CommandNotFound]. *)
Lemma app_raises :
  located Demo.system "ls" = Some "/bin/ls"
  ∧ (∃ msg,
       (app Demo.system "ls" [] default_out default_err default_tee
          {["_err_to_out" := VBool true]} 0 Demo.world).1
       = Raise (Exn (TypeError msg) None))
  ∧ (app Demo.bare Demo.missing [] default_out default_err default_tee ∅
       0 Demo.world).1
    = Raise (Exn (CommandNotFound (sys_executable Demo.bare))
               (Some (Exn (CommandNotFound Demo.missing) None))).
Proof.
  vm_compute. split; [reflexivity|]. split; [by eexists|reflexivity].
Qed.

Lemma redirect_none ca key text me w :
  ca !! key = None → redirect ca key text me w = (Ok tt, w).
Proof. unfold redirect. by intros ->. Qed.

(** The call of a command that has no streams baked in, with no keyword
    arguments but, at most, the accepted codes. *)
Lemma sh_call_plain sys c args kwargs me w :
  call_args c = ∅ →
  extract_call_args sys kwargs me w = (Ok kwargs, w) →
  kwargs !! "_out" = None → kwargs !! "_err" = None →
  let child := run_program sys (cmd_path c) (baked_args c ++ args) in
  let code := Z.of_N (proc_exit_code child) in
  sh_call sys c args kwargs me w
  = (if bool_decide (code ∈ ok_codes kwargs) then Ok child
     else Raise (Exn (ErrorReturnCode code (proc_stdout child)
                        (proc_stderr child)) None), w).
Proof.
  intros Hca Hex Hout Herr child code. unfold sh_call. unfold_M.
  rewrite Hex, Hca, (right_id_L ∅ (∪)). fold child code.
  rewrite !redirect_none by done.
  unfold captured_out, captured_err. rewrite Hout, Herr.
  destruct (bool_decide _); [|done]. by destruct child.
Qed.

(** C1, as the code has it.  For a command that is not located, [app]
    returns a command for the interpreter with [-c] and the script that
    carries the name, and with nothing of the arguments of [app] in it.
    Calling it, with any arguments, runs the interpreter on them as a
    child and waits for it.  The exit is the child's: when its status is
    not among the accepted codes (0, unless the call names others), the
    caller gets an [ErrorReturnCode] with that status and the output of
    the child in it -- an ordinary [Exception], not a [SystemExit] -- and
    otherwise the call returns the result.  Either way the world of the
    caller is as before: the process goes on, and nothing has been
    written to its console. *)
Theorem fallback_raises_ErrorReturnCode sys name args0 _out _err _tee kwargs0
    me0 w0 handle w0' args me w :
  located sys name = None →
  app sys name args0 _out _err _tee kwargs0 me0 w0 = (Ok handle, w0') →
  let child :=
    run_program sys (cmd_path handle)
      (["-c"; fallback_script name] ++ args) in
  let code := Z.of_N (proc_exit_code child) in
  let e := Exn (ErrorReturnCode code (proc_stdout child)
                  (proc_stderr child)) None in
  handle = mkCommand (cmd_path handle) ["-c"; fallback_script name] ∅
  ∧ located sys (sys_executable sys) = Some (cmd_path handle)
  ∧ w0' = w0
  ∧ sh_call sys handle args ∅ me w
    = (if bool_decide (code = 0%Z) then Ok child else Raise e, w)
  ∧ (∀ codes,
       sh_call sys handle args {["_ok_code" := VCodes codes]} me w
       = (match sh_refuses sys {["_ok_code" := VCodes codes]} with
          | Some msg => Raise (Exn (TypeError msg) None)
          | None => if bool_decide (code ∈ codes) then Ok child else Raise e
          end, w))
  ∧ is_Exception e = true.
Proof.
  intros Hmiss Happ.
  rewrite (app_not_located _ _ _ _ _ _ _ _ _ Hmiss) in Happ.
  destruct (located sys (sys_executable sys)) as [python|] eqn:Hpy; [|done].
  injection Happ as <- <-. simpl.
  split; [done|]. split; [done|]. split; [done|].
  split; [|split; [|done]].
  - rewrite sh_call_plain;
      [|done|apply extract_call_args_empty|apply lookup_empty..].
    simpl. unfold ok_codes. rewrite lookup_empty.
    assert (∀ z : Z, bool_decide (z ∈ [0%Z]) = bool_decide (z = 0%Z)) as Hz.
    { intros z. apply bool_decide_ext, list_elem_of_singleton. }
    by rewrite Hz.
  - intros codes.
    destruct (sh_refuses sys {["_ok_code" := VCodes codes]}) as [msg|]
      eqn:Hacc.
    + unfold sh_call. unfold_M.
      rewrite extract_call_args_non_empty by apply insert_non_empty.
      by rewrite Hacc.
    + rewrite sh_call_plain; [|done| |by apply lookup_singleton_ne..].
      * simpl. unfold ok_codes. by rewrite lookup_singleton_eq.
      * rewrite extract_call_args_non_empty by apply insert_non_empty.
        by rewrite Hacc.
Qed.

Lemma fallback_raises_ErrorReturnCode_witness :
  ∃ handle out err,
    app Demo.system Demo.missing ["-l"] default_out default_err default_tee
      {["_ok_code" := VCodes [0; 1]%Z]} 0 Demo.world
    = (Ok handle, Demo.world)
    ∧ call_args handle = ∅
    ∧ sh_call Demo.system handle ["--verbose"] ∅ 0 Demo.world
      = (Raise (Exn (ErrorReturnCode 1 out err) None), Demo.world)
    ∧ sh_call Demo.system handle ["--verbose"]
        {["_ok_code" := VCodes [0; 1]%Z]} 0 Demo.world
      = (Ok (mkProc 1 out err), Demo.world).
Proof.
  pose (handle := mkCommand Demo.python
                    ["-c"; fallback_script Demo.missing] ∅).
  assert (located Demo.system Demo.missing = None) as Hmiss
    by (vm_compute; reflexivity).
  assert (app Demo.system Demo.missing ["-l"] default_out default_err
            default_tee {["_ok_code" := VCodes [0; 1]%Z]} 0 Demo.world
          = (Ok handle, Demo.world)) as Happ by (vm_compute; reflexivity).
  destruct (fallback_raises_ErrorReturnCode Demo.system Demo.missing ["-l"]
              default_out default_err default_tee
              {["_ok_code" := VCodes [0; 1]%Z]} 0 Demo.world handle
              Demo.world ["--verbose"] 0 Demo.world Hmiss Happ)
    as (_ & _ & _ & Hcall & Hcodes & _).
  specialize (Hcodes [0; 1]%Z).
  assert (sh_refuses Demo.system {["_ok_code" := VCodes [0; 1]%Z]} = None)
    as Hacc by (vm_compute; reflexivity).
  rewrite Hacc in Hcodes.
  set (child := run_program Demo.system (cmd_path handle)
                  (["-c"; fallback_script Demo.missing] ++ ["--verbose"]))
    in *.
  assert (proc_exit_code child = 1%N) as Hexit by (vm_compute; reflexivity).
  exists handle, (proc_stdout child), (proc_stderr child).
  split; [exact Happ|]. split; [reflexivity|].
  rewrite Hcall, Hcodes, Hexit. simpl.
  split; [reflexivity|]. vm_compute. reflexivity.
Defined.

(** C1 as stated fails: for the missing command of the specification the
    call of the handle raises an [ErrorReturnCode] in the caller, an
    ordinary [Exception] and no [SystemExit]; the world of the caller,
    console included, is as before; and with 1 among the accepted codes the
    call returns. *)
Lemma fallback_is_an_ordinary_error :
  let handle := mkCommand Demo.python ["-c"; fallback_script Demo.missing] ∅ in
  let r := sh_call Demo.system handle [] ∅ 0 Demo.world in
  app Demo.system Demo.missing [] default_out default_err default_tee ∅
    0 Demo.world = (Ok handle, Demo.world)
  ∧ (∃ out err, r.1 = Raise (Exn (ErrorReturnCode 1 out err) None))
  ∧ (∀ e, r.1 = Raise e → is_Exception e = true)
  ∧ r.1 ≠ Raise (Exn (SystemExit 1) None)
  ∧ r.2 = Demo.world
  ∧ (∃ out err,
       (sh_call Demo.system handle [] {["_ok_code" := VCodes [0; 1]%Z]}
          0 Demo.world).1 = Ok (mkProc 1 out err)).
Proof.
  vm_compute. split; [reflexivity|]. split; [by eexists _, _|].
  split; [by intros e [= <-]|]. split; [discriminate|].
  split; [reflexivity|by eexists _, _].
Qed.

(** * Further properties *)

(** ** [cwd] and [cd] *)

(** X1: [cwd()] reads and changes nothing: it returns the current directory
    as it is, already absolute and normalised, and it raises
    [FileNotFoundError] exactly when the current directory is gone. *)
Theorem cwd_reads_location me w :
  cwd me w
  = if is_dir (fs w) (wd w) then (Ok (of_location (wd w)), w)
    else (Raise (Exn (OSError ENOENT) None), w).
Proof.
  destruct (is_dir (fs w) (wd w)) eqn:Hd; [by apply cwd_Ok|].
  unfold cwd, os_getcwd. unfold_M. by rewrite Hd.
Qed.



(** X3: [cd] does not use the lock: while another thread holds it, [pushd]
    blocks with the world unchanged, but [cd] goes ahead, leaves the lock
    alone and, on a path that leads to a directory, moves the working
    directory that the thread in the scope sees. *)
Theorem cd_is_not_serialised A path create (block : M A) me w d :
  lock_available me (PUSHD_LOCK_state w) = false →
  resolve (fs w) (wd w) path = inr d →
  pushd path create block me w = (Blocks, w)
  ∧ (cd path create me w).1 = Ok tt
  ∧ wd (cd path create me w).2 = d
  ∧ PUSHD_LOCK_state (cd path create me w).2 = PUSHD_LOCK_state w.
Proof.
  intros Hl Hres. split; [by apply pushd_blocked|].
  assert (cd path create me w
          = (Ok tt, set_wd d (add_log (mkLog "cd -> %s" path) w))) as ->.
  { unfold cd. unfold_M.
    assert ((if create then os_makedirs path else λ _ w, (Ok tt, w)) me w
            = (Ok tt, w)) as ->.
    { destruct create; [|done]. by eapply os_makedirs_existing. }
    unfold logger_debug, os_chdir. simpl. by rewrite Hres. }
  done.
Qed.

Lemma cd_is_not_serialised_witness :
  pushd (abs [Name "tmp"]) false cwd 2 (world Demo.after_schedule)
  = (Blocks, world Demo.after_schedule)
  ∧ wd (cd (abs [Name "tmp"]) false 2 (world Demo.after_schedule)).2
    = ["tmp"].
Proof.
  destruct (cd_is_not_serialised Path (abs [Name "tmp"]) false cwd 2
              (world Demo.after_schedule) ["tmp"])
    as (H1 & _ & H2 & _); [vm_compute; reflexivity..|].
  split; [exact H1|exact H2].
Defined.

(** ** [pushd]: when it enters, what it leaves behind *)

(** X4: without [create], the block of [pushd(path)] runs and the scope
    ends well exactly when the lock is free or the caller's, the current
    directory is still there, and the absolute normalised form of [path]
    is a directory; the block then runs in that directory, on the tree as
    it was.  The path is normalised before it is used, so a segment that
    does not exist does no harm when a [..] takes it back. *)
Theorem pushd_enters_iff path me w :
  ((∃ inside after,
      pushd path false current_world me w = (Ok inside, after))
   ↔ lock_available me (PUSHD_LOCK_state w) = true
     ∧ is_dir (fs w) (wd w) = true
     ∧ is_dir (fs w) (abspath_location (wd w) path) = true)
  ∧ (∀ inside after,
       pushd path false current_world me w = (Ok inside, after) →
       wd inside = abspath_location (wd w) path ∧ fs inside = fs w).
Proof.
  assert (∀ inside after,
            pushd path false current_world me w = (Ok inside, after) →
            lock_available me (PUSHD_LOCK_state w) = true
            ∧ is_dir (fs w) (wd w) = true
            ∧ is_dir (fs w) (abspath_location (wd w) path) = true
            ∧ wd inside = abspath_location (wd w) path
            ∧ fs inside = fs w) as Hinv.
  { intros inside after (fr & w1 & w2 & He & Hb & _)%pushd_Ok_inv.
    injection Hb as E1 E2. subst w1 w2.
    destruct (pushd_enter_Ok_inv _ _ _ _ _ _ He)
      as (Hl & Hd & _ & _ & Hno & Ht & Hwd & _).
    rewrite (Hno eq_refl) in Ht. repeat split; auto. }
  split; [split|].
  - intros (inside & after & Hp).
    by destruct (Hinv _ _ Hp) as (? & ? & ? & _).
  - intros (Hl & Hd & Ht).
    destruct (pushd_enter_succeeds path false me w Hl Hd Ht)
      as (fr & w1 & He).
    eexists _, _.
    by apply (pushd_looking _ path false current_world me w fr w1 w1 He).
  - intros inside after Hp. by destruct (Hinv _ _ Hp) as (_ & _ & _ & ? & ?).
Qed.

Lemma pushd_enters_iff_witness :
  (∃ inside after,
     pushd (rel [Name "missing"; Up; Name "recept"]) false current_world
       0 Demo.world = (Ok inside, after)
     ∧ wd inside = ["home"; "u"; "recept"])
  ∧ (cd (rel [Name "missing"; Up; Name "recept"]) false 0 Demo.world).1
    = Raise (Exn (OSError ENOENT) None).
Proof.
  split; [|vm_compute; reflexivity].
  destruct (pushd_enters_iff (rel [Name "missing"; Up; Name "recept"])
              0 Demo.world) as [[_ Hin] Hwd].
  destruct Hin as (inside & after & Hp);
    [repeat split; vm_compute; reflexivity|].
  exists inside, after. split; [exact Hp|].
  destruct (Hwd _ _ Hp) as [-> _]. vm_compute. reflexivity.
Defined.

(** X6: [pushd] never keeps the lock.  From a lock in order, with a block
    that does not block and leaves the lock as it found it, the call ends
    (it does not block) and the lock is afterwards exactly as before:
    when the entry fails, when the block raises, and when the way back
    fails as well. *)
Theorem pushd_never_keeps_lock A path create (block : M A) me w :
  lock_well_formed me (PUSHD_LOCK_state w) = true →
  (∀ w1, (block me w1).1 ≠ Blocks
         ∧ PUSHD_LOCK_state (block me w1).2 = PUSHD_LOCK_state w1) →
  (pushd path create block me w).1 ≠ Blocks
  ∧ PUSHD_LOCK_state (pushd path create block me w).2 = PUSHD_LOCK_state w.
Proof.
  intros Hwf Hblock.
  pose proof (lock_well_formed_available _ _ Hwf) as Hl.
  pose proof (pushd_enter_available path create me w Hl) as Hnb.
  destruct (pushd_enter path create me w) as [[fr|e|] w1] eqn:He; [| |done].
  - destruct (pushd_enter_Ok_inv _ _ _ _ _ _ He)
      as (_ & _ & _ & _ & _ & _ & _ & Hlock & _).
    destruct (Hblock w1) as [Hr Hlk].
    destruct (block me w1) as [r w2] eqn:Hb. simpl in Hr, Hlk.
    assert (owner (PUSHD_LOCK_state w2) = Some me) as Ho
      by by rewrite Hlk, Hlock, owner_acquired.
    rewrite (pushd_enter_exit A path create block me w fr w1 r w2 He Hb Ho).
    destruct (pushd_exit_owner fr me w2 Ho) as [Hx Hxl].
    assert (released me (PUSHD_LOCK_state w2) = PUSHD_LOCK_state w) as Hfin.
    { rewrite Hlk, Hlock. by apply released_acquired_well_formed. }
    rewrite Hfin in Hxl. unfold try_finally. rewrite Hb.
    destruct (pushd_exit fr me w2) as [[[]|e'|] w3]; simpl in *;
      by destruct r.
  - rewrite pushd_unfold, He. simpl. split; [done|].
    rewrite (pushd_enter_Raise_lock _ _ _ _ _ _ He).
    by apply released_acquired_well_formed.
Qed.

Lemma pushd_never_keeps_lock_witness :
  PUSHD_LOCK_state
    (pushd (rel [Name "missing"]) false (cd (abs [Name "tmp"]) false)
       0 Demo.world).2 = unlocked
  ∧ PUSHD_LOCK_state
      (pushd (rel [Name "recept"]) false (cd (abs [Name "nowhere"]) false)
         1 (world Demo.after_schedule)).2
    = mkRLock (Some 1) 1.
Proof.
  split.
  - apply (pushd_never_keeps_lock unit (rel [Name "missing"]) false
             (cd (abs [Name "tmp"]) false) 0 Demo.world);
      [reflexivity|intros w1; apply cd_lock].
  - etrans; [apply (pushd_never_keeps_lock unit (rel [Name "recept"]) false
                      (cd (abs [Name "nowhere"]) false) 1
                      (world Demo.after_schedule));
             [vm_compute; reflexivity|intros w1; apply cd_lock]|].
    vm_compute. reflexivity.
Defined.

(** X7: a scope with an empty block and without [create] changes nothing
    but the log: the tree, the working directory, the lock and the console
    are as before, and the log has gained the two records of the entry and
    of the exit, both with the absolute path of the target. *)
Theorem pushd_empty_scope path me w fr w1 :
  pushd_enter path false me w = (Ok fr, w1) →
  lock_well_formed me (PUSHD_LOCK_state w) = true →
  let p := of_location (abspath_location (wd w) path) in
  pushd path false (mret tt) me w
  = (Ok tt,
     add_log (mkLog "pushd <- %s" p) (add_log (mkLog "pushd -> %s" p) w)).
Proof.
  intros He Hwf p.
  destruct (pushd_enter_Ok_inv _ _ _ _ _ _ He)
    as (Hl & Hd & Hfr & _ & Hno & Ht & Hwd & Hlock & Hlog & Hcon).
  rewrite (pushd_scope unit path false (mret tt) me w fr w1 (Ok tt) w1 He);
    [|done|done| |done].
  2:{ rewrite (Hno eq_refl). exact Hd. }
  rewrite Hlock, released_acquired_well_formed by done.
  rewrite Hfr. simpl. fold p.
  destruct w, w1. simpl in *. unfold set_lock, set_wd, add_log. simpl.
  specialize (Hno eq_refl). by subst.
Qed.

Lemma pushd_empty_scope_witness :
  let p := of_location ["home"; "u"; "recept"] in
  pushd (rel [Name "recept"; Cur]) false (mret tt) 0 Demo.world
  = (Ok tt,
     add_log (mkLog "pushd <- %s" p)
       (add_log (mkLog "pushd -> %s" p) Demo.world)).
Proof.
  intros p.
  assert (pushd_enter (rel [Name "recept"; Cur]) false 0 Demo.world
          = (Ok (mkFrame (of_location ["home"; "u"]) p),
             (pushd_enter (rel [Name "recept"; Cur]) false 0 Demo.world).2))
    as He by (vm_compute; reflexivity).
  exact (pushd_empty_scope _ _ _ _ _ He eq_refl).
Defined.

(** X8: a block that returned normally does not save the scope when the
    directory of the entry is gone: the call raises the [OSError] of the
    way back (without context), the value of the block is lost, the
    working directory stays where the block left it, and the lock is given
    back. *)
Theorem pushd_strands_returning_block A path create (block : M A)
    me w fr w1 a w2 :
  pushd_enter path create me w = (Ok fr, w1) →
  block me w1 = (Ok a, w2) →
  PUSHD_LOCK_state w2 = PUSHD_LOCK_state w1 →
  is_dir (fs w2) (wd w) = false →
  ∃ err,
    pushd path create block me w
    = (Raise (Exn (OSError err) None),
       set_lock (released me (PUSHD_LOCK_state w1))
         (add_log (mkLog "pushd <- %s" (entered fr)) w2)).
Proof.
  intros He Hb Hlk Hgone.
  destruct (pushd_enter_Ok_inv _ _ _ _ _ _ He)
    as (_ & _ & Hfr & _ & _ & _ & _ & Hlock & _).
  rewrite pushd_unfold, He, <- Hlk.
  assert (entered fr = of_location (abspath_location (wd w) path)) as ->
    by by rewrite Hfr.
  apply (scope_exit_stranded A block fr me w1 (Ok a) w2 (wd w)); try done.
  by rewrite Hlk, Hlock, owner_acquired.
Qed.

Lemma pushd_strands_returning_block_witness :
  ∃ err w',
    pushd (abs [Name "home"; Name "u"]) false
      (shutil_rmtree (abs [Name "tmp"; Name "work"])) 0 Demo.scratch
    = (Raise (Exn (OSError err) None), w')
    ∧ wd w' = ["home"; "u"].
Proof.
  assert (pushd_enter (abs [Name "home"; Name "u"]) false 0 Demo.scratch
          = (Ok (mkFrame (of_location ["tmp"; "work"])
                   (of_location ["home"; "u"])),
             (pushd_enter (abs [Name "home"; Name "u"]) false
                0 Demo.scratch).2)) as He by (vm_compute; reflexivity).
  assert (shutil_rmtree (abs [Name "tmp"; Name "work"]) 0
            (pushd_enter (abs [Name "home"; Name "u"]) false 0 Demo.scratch).2
          = (Ok tt,
             (shutil_rmtree (abs [Name "tmp"; Name "work"]) 0
                (pushd_enter (abs [Name "home"; Name "u"]) false
                   0 Demo.scratch).2).2)) as Hb by (vm_compute; reflexivity).
  destruct (pushd_strands_returning_block unit _ _ _ _ _ _ _ _ _ He Hb)
    as [err Herr]; [vm_compute; reflexivity..|].
  exists err. eexists. split; [exact Herr|]. vm_compute. reflexivity.
Defined.

Lemma pushd_enter_Ok_tree path me w fr w1 :
  pushd_enter path true me w = (Ok fr, w1) →
  fs w1
  = (walk_create (fs w) [] (Name <$> abspath_location (wd w) path)).1.
Proof.
  intros H.
  destruct (pushd_enter_Ok_inv _ _ _ _ _ _ H) as (Hl & Hd & _).
  unfold pushd_enter in H. unfold_M.
  rewrite (RLock_acquire_available _ _ Hl) in H.
  rewrite os_getcwd_Ok in H by done.
  rewrite os_path_abspath_Ok in H by done.
  unfold os_makedirs, logger_debug, os_chdir in H. simpl in H.
  destruct (walk_create _ _ _) as [t [e|d]] eqn:Hc.
  { by destruct (RLock_release PUSHD_LOCK me _) as [[[]| |] ?]. }
  simpl in H. destruct (resolve _ _ _).
  { by destruct (RLock_release PUSHD_LOCK me _) as [[[]| |] ?]. }
  by injection H as _ <-.
Qed.

(** X14: what entering a scope does to the tree.  Nothing is removed or
    replaced; without [create] nothing is added; with [create] all that is
    added are directories that were missing on the way from the root to
    the target. *)
Theorem pushd_creates_only_the_way path create me w fr w1 :
  pushd_enter path create me w = (Ok fr, w1) →
  fs w ⊆ fs w1
  ∧ ∀ key v, fs w1 !! key = Some v →
      fs w !! key = Some v
      ∨ (create = true ∧ v = Dir ∧ fs w !! key = None
         ∧ key ≠ [] ∧ key `prefix_of` wd w1).
Proof.
  intros He.
  destruct (pushd_enter_Ok_inv _ _ _ _ _ _ He)
    as (_ & _ & _ & Hsub & Hno & _ & Hwd & _).
  split; [done|]. intros key v Hk.
  destruct (fs w !! key) as [v'|] eqn:Hold.
  { left. by rewrite (lookup_weaken _ _ _ _ Hold Hsub) in Hk. }
  right. destruct create; [|by rewrite (Hno eq_refl), Hold in Hk].
  rewrite (pushd_enter_Ok_tree _ _ _ _ _ He) in Hk.
  destruct (walk_create_keys _ _ _ key v Hk)
    as [Hin|[-> (k & Hlt & ->)]]; [congruence|].
  simpl. rewrite Hwd.
  destruct (lookup_lt_is_Some_2 _ k Hlt) as [x Hx].
  rewrite (take_S_r _ _ _ Hx).
  repeat split; try done.
  - by destruct (take k _).
  - rewrite <- (take_S_r _ _ _ Hx). apply prefix_take.
Qed.

Lemma pushd_creates_only_the_way_witness :
  fs (pushd_enter (rel [Name "a"; Name "b"]) true 0 Demo.world).2
    !! ["home"; "u"; "a"] = Some Dir
  ∧ fs Demo.world !! ["home"; "u"; "a"] = None
  ∧ ["home"; "u"; "a"]
      `prefix_of` wd (pushd_enter (rel [Name "a"; Name "b"]) true
                        0 Demo.world).2.
Proof.
  assert (pushd_enter (rel [Name "a"; Name "b"]) true 0 Demo.world
          = (Ok (mkFrame (of_location ["home"; "u"])
                   (of_location ["home"; "u"; "a"; "b"])),
             (pushd_enter (rel [Name "a"; Name "b"]) true 0 Demo.world).2))
    as He by (vm_compute; reflexivity).
  assert (fs (pushd_enter (rel [Name "a"; Name "b"]) true 0 Demo.world).2
            !! ["home"; "u"; "a"] = Some Dir) as Hk
    by (vm_compute; reflexivity).
  destruct (pushd_creates_only_the_way _ _ _ _ _ _ He) as [_ H].
  destruct (H _ _ Hk) as [Hold|(_ & _ & Hnew & _ & Hp)].
  - vm_compute in Hold. discriminate.
  - done.
Defined.

(** ** Scopes in scopes *)

Lemma default_last_cons {A} (d x : A) (l : list A) :
  default d (last (x :: l)) = default x (last l).
Proof. rewrite last_cons. by destruct (last l). Qed.

(** X9: scopes nest to any depth and unwind in the reverse order.  For
    paths that lead, each from the one before, to directories that are
    there, the scopes are entered one inside the other without blocking:
    the innermost block runs in the last of the directories, on the same
    tree, with the lock one level up for each scope.  Afterwards tree,
    working directory, lock and console are as before, and the log has
    the records of the entries in their order followed by the records of
    the exits in the opposite order. *)
Theorem nest_unwinds paths me w :
  let targets := route (wd w) paths in
  lock_well_formed me (PUSHD_LOCK_state w) = true →
  is_dir (fs w) (wd w) = true →
  forallb (is_dir (fs w)) targets = true →
  ∃ inside,
    nest paths false current_world me w
    = (Ok inside,
       mkWorld (fs w) (wd w) (PUSHD_LOCK_state w)
         (debug_log w
            ++ (mkLog "pushd -> %s" ∘ of_location <$> targets)
            ++ (mkLog "pushd <- %s" ∘ of_location <$> reverse targets))
         (console w))
    ∧ wd inside = default (wd w) (last targets)
    ∧ fs inside = fs w
    ∧ (paths ≠ [] →
       PUSHD_LOCK_state inside
       = mkRLock (Some me) (count (PUSHD_LOCK_state w) + length paths)).
Proof.
  revert w. induction paths as [|p rest IH]; intros w targets Hwf Hd Hall.
  - exists w. simpl. rewrite !app_nil_r. by destruct w.
  - simpl in targets. set (target := abspath_location (wd w) p) in *.
    subst targets. simpl in Hall. apply andb_prop in Hall as [Ht Hall].
    pose proof (pushd_enter_Ok p false me w (fs w)
                  (lock_well_formed_available _ _ Hwf) Hd eq_refl Ht) as He.
    fold target in He.
    set (w1 := mkWorld (fs w) target _ _ _) in He.
    destruct (lock_well_formed_acquired _ _ Hwf) as [Hacq Hwf1].
    destruct (IH w1 Hwf1 Ht Hall) as (inside & Hn & Hwd & Hfs & Hlk).
    exists inside. split; [|split; [|split]].
    + cbn [nest].
      erewrite (pushd_scope _ p false _ me w _ w1 (Ok inside) _ He Hn);
        [|done|done|done].
      simpl. rewrite (released_acquired_well_formed _ _ Hwf).
      unfold set_lock, set_wd, add_log. simpl. f_equal. f_equal.
      rewrite reverse_cons, !fmap_app. simpl.
      by rewrite <- !app_assoc.
    + rewrite default_last_cons. exact Hwd.
    + exact Hfs.
    + intros _. destruct rest as [|p' rest'].
      * simpl in Hn. injection Hn as <- _. simpl. by rewrite Hacq.
      * rewrite Hlk by done. simpl. rewrite Hacq. simpl.
        f_equal. lia.
Qed.

Lemma nest_unwinds_witness :
  ∃ inside,
    nest [rel [Name "recept"]; rel [Name "docs"]; abs [Name "tmp"; Cur]]
      false current_world 0 Demo.world
    = (Ok inside,
       mkWorld Demo.tree ["home"; "u"] unlocked
         (mkLog "pushd -> %s" (of_location ["home"; "u"; "recept"])
          :: mkLog "pushd -> %s" (of_location ["home"; "u"; "recept"; "docs"])
          :: mkLog "pushd -> %s" (of_location ["tmp"])
          :: mkLog "pushd <- %s" (of_location ["tmp"])
          :: mkLog "pushd <- %s" (of_location ["home"; "u"; "recept"; "docs"])
          :: mkLog "pushd <- %s" (of_location ["home"; "u"; "recept"])
          :: [])
         [])
    ∧ wd inside = ["tmp"]
    ∧ PUSHD_LOCK_state inside = mkRLock (Some 0) 3.
Proof.
  destruct (nest_unwinds
              [rel [Name "recept"]; rel [Name "docs"]; abs [Name "tmp"; Cur]]
              0 Demo.world) as (inside & Hn & Hwd & _ & Hlk);
    [vm_compute; reflexivity..|].
  exists inside. split; [exact Hn|]. split; [exact Hwd|]. by apply Hlk.
Defined.

(** ** The decorator, and a current directory that is gone *)

(** X15: [with_lock] around any context-manager function.  While another
    thread holds the lock the function is not started and nothing changes.
    Otherwise, when the function does not block and leaves the lock as it
    found it, the decorated call ends as the function does, on the world
    the function leaves, run with the lock taken; and the lock is
    afterwards as it was before the call. *)
Theorem with_lock_guards (fn : Path → bool → context_manager) path create
    A (block : M A) me w :
  (lock_available me (PUSHD_LOCK_state w) = false →
   with_lock PUSHD_LOCK fn path create A block me w = (Blocks, w))
  ∧ (lock_well_formed me (PUSHD_LOCK_state w) = true →
     (∀ w1, (fn path create A block me w1).1 ≠ Blocks
            ∧ PUSHD_LOCK_state (fn path create A block me w1).2
              = PUSHD_LOCK_state w1) →
     let r := fn path create A block me
                (set_lock (acquired me (PUSHD_LOCK_state w)) w) in
     with_lock PUSHD_LOCK fn path create A block me w
     = (r.1, set_lock (PUSHD_LOCK_state w) r.2)).
Proof.
  unfold with_lock, with_RLock. unfold_M. split.
  - intros Hl. by rewrite (RLock_acquire_held _ _ Hl).
  - intros Hwf Hfn. cbv zeta.
    rewrite (RLock_acquire_available _ _ (lock_well_formed_available _ _ Hwf)).
    destruct (Hfn (set_lock (acquired me (PUSHD_LOCK_state w)) w)) as [Hnb Hlk].
    destruct (fn path create A block me _) as [o w'] eqn:Hr. simpl in *.
    assert (RLock_release PUSHD_LOCK me w'
            = (Ok tt, set_lock (PUSHD_LOCK_state w) w')) as Hrel.
    { rewrite RLock_release_owner by by rewrite Hlk, owner_acquired.
      by rewrite Hlk, released_acquired_well_formed. }
    destruct o as [a|e|]; [| |done]; by rewrite Hrel.
Qed.

Lemma with_lock_guards_witness :
  with_lock PUSHD_LOCK (λ _ _ _ block, block) (rel []) false unit
    (cd (abs [Name "tmp"]) false) 0 Demo.world
  = ((cd (abs [Name "tmp"]) false 0
        (set_lock (acquired 0 unlocked) Demo.world)).1,
     set_lock unlocked
       (cd (abs [Name "tmp"]) false 0
          (set_lock (acquired 0 unlocked) Demo.world)).2).
Proof.
  destruct (with_lock_guards (λ _ _ _ block, block) (rel []) false unit
              (cd (abs [Name "tmp"]) false) 0 Demo.world) as [_ H].
  apply H; [reflexivity|]. intros w1. apply cd_lock.
Defined.

(** X16: [pushd] reads the current directory first.  When the current
    directory is gone, [pushd] raises [FileNotFoundError] for every path,
    absolute ones and [create] included, runs no block and leaves the
    world as it is; [cd] on a path that still leads to a directory gets
    out. *)
Theorem pushd_needs_current_directory A path create (block : M A) me w :
  is_dir (fs w) (wd w) = false →
  lock_well_formed me (PUSHD_LOCK_state w) = true →
  pushd path create block me w = (Raise (Exn (OSError ENOENT) None), w)
  ∧ ∀ d, resolve (fs w) (wd w) path = inr d →
         (cd path create me w).1 = Ok tt
         ∧ wd (cd path create me w).2 = d.
Proof.
  intros Hgone Hwf. split.
  - rewrite pushd_unfold. unfold pushd_enter. unfold_M.
    rewrite (RLock_acquire_available _ _ (lock_well_formed_available _ _ Hwf)).
    unfold os_getcwd. simpl. rewrite Hgone.
    rewrite RLock_release_owner by (simpl; apply owner_acquired).
    simpl. rewrite released_acquired_well_formed by done. by destruct w.
  - intros d Hres.
    assert (cd path create me w
            = (Ok tt, set_wd d (add_log (mkLog "cd -> %s" path) w))) as ->.
    { unfold cd. unfold_M.
      assert ((if create then os_makedirs path else λ _ w, (Ok tt, w)) me w
              = (Ok tt, w)) as ->.
      { destruct create; [|done]. by eapply os_makedirs_existing. }
      unfold logger_debug, os_chdir. simpl. by rewrite Hres. }
    done.
Qed.

Lemma pushd_needs_current_directory_witness :
  pushd (abs [Name "tmp"]) true cwd 0 Demo.stranded
  = (Raise (Exn (OSError ENOENT) None), Demo.stranded)
  ∧ wd (cd (abs [Name "tmp"]) true 0 Demo.stranded).2 = ["tmp"]
  ∧ wd (cd (rel [Up]) false 0 Demo.stranded).2 = ["tmp"].
Proof.
  destruct (pushd_needs_current_directory Path (abs [Name "tmp"]) true cwd
              0 Demo.stranded) as [H1 H2]; [vm_compute; reflexivity..|].
  destruct (pushd_needs_current_directory Path (rel [Up]) false cwd
              0 Demo.stranded) as [_ H3]; [vm_compute; reflexivity..|].
  split; [exact H1|]. split.
  - destruct (H2 ["tmp"]) as [_ H]; [vm_compute; reflexivity|exact H].
  - destruct (H3 ["tmp"]) as [_ H]; [vm_compute; reflexivity|exact H].
Defined.

(** ** A command made with [_out=None]: [find] *)

(** X13: [app(name, _out=None)], as [find] is made.  Where [None] is the
    default of [_out] in [sh], the command that is made has no [_out]
    baked in -- not the standard output of [app], and not [None] either
    -- while every other special keyword argument is in it as it was
    passed, unless it is the default as well. *)
Theorem app_out_None sys name args _err _tee kwargs me w path :
  located sys name = Some path →
  sh_is_default sys "_out" VNone = true →
  let passed :=
    <["_out" := VNone]> (<["_err" := _err]> (<["_tee" := _tee]> kwargs)) in
  sh_refuses sys passed = None →
  ∃ handle,
    app sys name args VNone _err _tee kwargs me w = (Ok handle, w)
    ∧ cmd_path handle = path
    ∧ baked_args handle = args
    ∧ call_args handle !! "_out" = None
    ∧ ∀ key v, key ≠ "_out" →
        (call_args handle !! key = Some v
         ↔ passed !! key = Some v ∧ sh_is_default sys key v = false).
Proof.
  intros Hloc Hdef passed Hacc.
  eexists. split.
  { rewrite (app_located _ _ _ _ _ _ _ _ _ _ Hloc). fold passed.
    by rewrite Hacc. }
  simpl. split; [done|]. split; [done|]. unfold prune. split.
  - apply map_lookup_filter_None. right. intros v Hv. simpl.
    unfold passed in Hv. rewrite lookup_insert_eq in Hv.
    injection Hv as <-. by rewrite Hdef.
  - intros key v _. by rewrite map_lookup_filter_Some.
Qed.

Lemma app_out_None_witness :
  ∃ handle,
    app Demo.system "ls" ["-l"] VNone default_err default_tee ∅ 0 Demo.world
    = (Ok handle, Demo.world)
    ∧ call_args handle !! "_out" = None
    ∧ call_args handle !! "_err" = Some default_err.
Proof.
  destruct (app_out_None Demo.system "ls" ["-l"] default_err default_tee ∅
              0 Demo.world "/bin/ls")
    as (handle & Happ & _ & _ & Hout & Hrest);
    [vm_compute; reflexivity..|].
  exists handle. split; [exact Happ|]. split; [exact Hout|].
  apply Hrest; [done|]. split; vm_compute; reflexivity.
Defined.
